(** * NixClaw: tool authorization and approval subsystem

    A shallow embedding of the command sandbox ([safe-exec.ts]), the policy
    engine ([tool-policy.ts]), the approval store ([approval.ts]) and the
    web UI route table ([routes.ts]), followed by the properties the
    specification states about them. *)

From Stdlib Require Import ZArith NArith List Bool Lia.
From Stdlib Require Import Strings.String Strings.Ascii Numbers.DecimalString.
From stdpp Require Import base option list gmap.

Local Open Scope Z_scope.

(** ** JavaScript strings

    A JavaScript string is a finite sequence of UTF-16 code units. The
    regular expressions of the sandbox carry no [u] flag, so they see code
    units as well. *)

Module JS.

Definition jsstring := list N.

(** String literals of the source, written as Rocq strings. *)
Definition lit (s : string) : jsstring :=
  List.map N_of_ascii (list_ascii_of_string s).

(** [WhiteSpace] and [LineTerminator] of ECMAScript: the set behind [\s] and
    behind [String.prototype.trim]. *)
Definition is_space (c : N) : bool :=
  existsb (N.eqb c)
    [9; 10; 11; 12; 13; 32; 160; 5760; 8232; 8233; 8239; 8287; 12288; 65279]%N
  || ((8192 <=? c) && (c <=? 8202))%N.

(** [\w] without the [u] and [i] flags: [A-Za-z0-9_]. *)
Definition is_word (c : N) : bool :=
  ((48 <=? c) && (c <=? 57) || (65 <=? c) && (c <=? 90)
   || (c =? 95) || (97 <=? c) && (c <=? 122))%N.

(** [Array.prototype.join] on an array of strings. *)
Fixpoint join (sep : jsstring) (l : list jsstring) : jsstring :=
  match l with
  | [] => []
  | [x] => x
  | x :: l' => x ++ sep ++ join sep l'
  end.

(** [s.slice(0, e)]: a negative end counts from the end of the string, and
    the result is clamped to the string. *)
Definition slice0 (s : jsstring) (e : Z) : jsstring :=
  let len := Z.of_nat (length s) in
  let to := if e <? 0 then Z.max (len + e) 0 else Z.min e len in
  firstn (Z.to_nat to) s.

Fixpoint trimStart (s : jsstring) : jsstring :=
  match s with
  | c :: s' => if is_space c then trimStart s' else s
  | [] => []
  end.

Definition trimEnd (s : jsstring) : jsstring := rev (trimStart (rev s)).

(** [String.prototype.trim]. *)
Definition trim (s : jsstring) : jsstring := trimEnd (trimStart s).

(** Template-literal rendering of an integral number. *)
Definition number_to_string (n : Z) : jsstring :=
  lit (NilZero.string_of_int (Z.to_int n)).

(** [s.startsWith(p)]. *)
Fixpoint startsWith (p s : jsstring) : bool :=
  match p, s with
  | [], _ => true
  | a :: p', b :: s' => (a =? b)%N && startsWith p' s'
  | _ :: _, [] => false
  end.

End JS.

(** ** Regular expressions

    The fragment of ECMAScript regular expressions that [BLOCKED_PATTERNS]
    uses: literals, character classes, [\b], concatenation, alternation, and
    the quantifiers [*] and [+] applied to a character class. *)

Module Regex.
Import JS.

Inductive regex : Type :=
| Eps
| Lit (c : N)
| Class (p : N -> bool)
| Star (p : N -> bool)
| WordB
| Cat (r1 r2 : regex)
| Alt (r1 r2 : regex).

(** A position in the subject is the code unit before it (if any) and the
    rest of the subject; [\b] needs both. *)
Definition kont := option N -> jsstring -> bool.

Definition word_at (c : option N) : bool :=
  match c with Some x => is_word x | None => false end.

Fixpoint star_k (p : N -> bool) (k : kont) (prev : option N) (s : jsstring) : bool :=
  match s with
  | c :: s' => if p c then star_k p k (Some c) s' || k prev s else k prev s
  | [] => k prev s
  end.

Fixpoint match_k (r : regex) (k : kont) (prev : option N) (s : jsstring) : bool :=
  match r with
  | Eps => k prev s
  | Lit c =>
      match s with
      | x :: s' => (x =? c)%N && k (Some x) s'
      | [] => false
      end
  | Class p =>
      match s with
      | x :: s' => p x && k (Some x) s'
      | [] => false
      end
  | Star p => star_k p k prev s
  | WordB => xorb (word_at prev) (word_at (head s)) && k prev s
  | Cat r1 r2 => match_k r1 (match_k r2 k) prev s
  | Alt r1 r2 => match_k r1 k prev s || match_k r2 k prev s
  end.

Fixpoint search (r : regex) (prev : option N) (s : jsstring) : bool :=
  match_k r (fun _ _ => true) prev s
  || match s with
     | c :: s' => search r (Some c) s'
     | [] => false
     end.

(** [RegExp.prototype.test] for a pattern without the [g] or [y] flag: is
    there a match starting anywhere in the subject. *)
Definition test (r : regex) (s : jsstring) : bool := search r None s.

(** The literal text [s] as a pattern. *)
Definition text (s : string) : regex :=
  fold_right (fun c r => Cat (Lit c) r) Eps (lit s).

Definition one_of (s : string) : N -> bool :=
  fun c => existsb (N.eqb c) (lit s).

Definition Plus (p : N -> bool) : regex := Cat (Class p) (Star p).

(** What it means for a pattern to match between two positions of the
    subject: [matches r prev s prev' s'] says that [r] matches a prefix of
    [s], the code unit before it being [prev], and that [s'] is what
    remains, the code unit before it being [prev']. *)
Inductive matches : regex -> option N -> jsstring -> option N -> jsstring -> Prop :=
| matches_Eps prev s : matches Eps prev s prev s
| matches_Lit c prev s : matches (Lit c) prev (c :: s) (Some c) s
| matches_Class p c prev s :
    p c = true -> matches (Class p) prev (c :: s) (Some c) s
| matches_Star_stop p prev s : matches (Star p) prev s prev s
| matches_Star_more p c prev s prev' s' :
    p c = true -> matches (Star p) (Some c) s prev' s' ->
    matches (Star p) prev (c :: s) prev' s'
| matches_WordB prev s :
    word_at prev <> word_at (head s) -> matches WordB prev s prev s
| matches_Cat r1 r2 prev s prev1 s1 prev2 s2 :
    matches r1 prev s prev1 s1 -> matches r2 prev1 s1 prev2 s2 ->
    matches (Cat r1 r2) prev s prev2 s2
| matches_Alt_l r1 r2 prev s prev' s' :
    matches r1 prev s prev' s' -> matches (Alt r1 r2) prev s prev' s'
| matches_Alt_r r1 r2 prev s prev' s' :
    matches r2 prev s prev' s' -> matches (Alt r1 r2) prev s prev' s'.

End Regex.

(** ** Command sandbox ([safe-exec.ts]) *)

Module SafeExec.
Import JS Regex.

Definition ALLOWED_COMMANDS : list jsstring :=
  List.map lit
    [ (* Process observation *)
      "ps"; "pgrep"; "pidof";
      (* System resources *)
      "free"; "df"; "du"; "lsblk"; "lscpu"; "lsmem";
      (* Network *)
      "ss"; "ip";
      (* Services *)
      "systemctl"; "journalctl";
      (* Files (read-only) *)
      "ls"; "cat"; "head"; "tail"; "wc"; "file"; "stat"; "find"; "realpath";
      (* System info *)
      "uptime"; "hostname"; "uname"; "who"; "w"; "last"; "date";
      (* Nix (read-only) *)
      "nix"; "nix-store"; "nixos-option"; "nixos-version"; "nixos-rebuild";
      (* Dev (read-only) *)
      "git";
      (* Hardware *)
      "sensors"; "lsusb"; "lspci" ]%string.

(** [/nixos-rebuild\s+(switch|boot|test)/] *)
Definition nixos_rebuild_pattern : regex :=
  Cat (text "nixos-rebuild")
    (Cat (Plus is_space) (Alt (text "switch") (Alt (text "boot") (text "test")))).

Definition BLOCKED_PATTERNS : list regex :=
  [ Class (one_of ";&|`");                        (* /[;&|`]/ *)
    text "$("; text "${";                         (* /\$\(/, /\$\{/ *)
    Cat (Lit 62) (Cat (Star is_space) (Class (fun c => negb (is_space c))));
                                                  (* />\s*[^\s]/ *)
    text "--delete"; text "--force";
    Cat (text "-rf") WordB;                       (* /-rf\b/ *)
    text "--hard"; text "--no-verify";
    Cat (text "-exec") WordB;                     (* /-exec\b/ *)
    nixos_rebuild_pattern;
    text "nix-collect-garbage";
    Cat WordB (Cat (text "push") WordB) ].        (* /\bpush\b/ *)

(** [ALLOWED_COMMANDS.has(command)] *)
Definition allowed_has (command : jsstring) : bool :=
  bool_decide (command ∈ ALLOWED_COMMANDS).

(** The [for (const pattern of BLOCKED_PATTERNS)] loop of
    [isCommandAllowed], with the [return true] that follows it. *)
Fixpoint scan_patterns (patterns : list regex) (fullArgs : jsstring) : bool :=
  match patterns with
  | [] => true
  | pattern :: rest =>
      if test pattern fullArgs then false else scan_patterns rest fullArgs
  end.

Definition isCommandAllowed (command : jsstring) (args : list jsstring) : bool :=
  if negb (allowed_has command) then false
  else
    let fullArgs := join (lit " ") args in
    scan_patterns BLOCKED_PATTERNS fullArgs.

Record SafeExecOptions : Type := {
  maxBytes : option Z;
  timeout : option Z;
  cwd : option jsstring;
}.

Definition no_options : SafeExecOptions :=
  {| maxBytes := None; timeout := None; cwd := None |}.

(** What the promisified [execFile] resolves with. *)
Record ExecResult : Type := { stdout : jsstring; stderr : jsstring }.

(** What it rejects with: an [Error] whose [stdout] and [stderr] may be
    missing (a spawn failure has neither). *)
Record ExecError : Type := {
  message : jsstring;
  err_stdout : option jsstring;
  err_stderr : option jsstring;
}.

Inductive settled (A : Type) : Type :=
| Resolved (a : A)
| Rejected (e : ExecError).
Arguments Resolved {A} a.
Arguments Rejected {A} e.

Record SpawnRequest : Type := {
  sp_file : jsstring;
  sp_args : list jsstring;
  sp_timeout : Z;
  sp_cwd : option jsstring;
}.

(** An asynchronous computation whose only effect is to spawn a subprocess
    and wait for it to settle. *)
Inductive proc (A : Type) : Type :=
| Return (r : settled A)
| Spawn (rq : SpawnRequest) (k : settled ExecResult -> proc A).
Arguments Return {A} r.
Arguments Spawn {A} rq k.

(** The truncation notice of [safeExec]. *)
Definition truncation_notice (maxBytes : Z) : jsstring :=
  lit (String "010" "... (truncated at ") ++ number_to_string maxBytes
  ++ lit " bytes)".

Definition safeExec (command : jsstring) (args : list jsstring)
    (options : SafeExecOptions) : proc jsstring :=
  let maxBytes := default 10240 (maxBytes options) in
  let timeout := default 30000 (timeout options) in
  let cwd := cwd options in
  if negb (isCommandAllowed command args) then
    Return (Resolved
      (lit "BLOCKED: Command " ++ [34%N] ++ command ++ lit " "
       ++ join (lit " ") args ++ [34%N] ++ lit " is not permitted."))
  else
    Spawn {| sp_file := command; sp_args := args;
             sp_timeout := timeout; sp_cwd := cwd |}
      (fun r =>
         match r with
         | Resolved res =>
             let output :=
               stdout res
               ++ (match stderr res with
                   | [] => []
                   | _ :: _ => lit (String "010" "STDERR: ") ++ stderr res
                   end) in
             let output :=
               if Z.of_nat (length output) >? maxBytes
               then slice0 output maxBytes ++ truncation_notice maxBytes
               else output in
             Return (Resolved output)
         | Rejected e =>
             Return (Resolved
               (trim (lit "Error: " ++ message e ++ [10%N]
                      ++ default [] (err_stdout e) ++ [10%N]
                      ++ default [] (err_stderr e))))
         end).

(** Running a computation against an operating system that settles every
    spawn request: the requests spawned, in order, and the final result. *)
Fixpoint run {A} (os : SpawnRequest -> settled ExecResult) (p : proc A)
    : list SpawnRequest * settled A :=
  match p with
  | Return r => ([], r)
  | Spawn rq k => let '(t, r) := run os (k (os rq)) in (rq :: t, r)
  end.

End SafeExec.

(** ** Policy engine ([tool-policy.ts]) *)

Module ToolPolicy.
Import JS.

Inductive PolicyDecision : Type := Allow | Deny | Approve.

Record ToolPolicy : Type := {
  tool : jsstring;                    (* tool name or "*" for wildcard *)
  effect : PolicyDecision;
  channels : option (list jsstring);  (* if set, only applies to these channels *)
  users : option (list jsstring);     (* if set, only applies to these users *)
}.

(** [xs && !xs.includes(x)]: an absent array is falsy, an array (even an
    empty one) is truthy. *)
Definition set_and_excludes (xs : option (list jsstring)) (x : jsstring) : bool :=
  match xs with
  | None => false
  | Some l => negb (bool_decide (x ∈ l))
  end.

Fixpoint evaluatePolicy (policies : list ToolPolicy)
    (toolName channel sender : jsstring) : PolicyDecision :=
  match policies with
  | [] => Allow
  | policy :: rest =>
      if negb (bool_decide (tool policy = lit "*"))
         && negb (bool_decide (tool policy = toolName))
      then evaluatePolicy rest toolName channel sender
      else if set_and_excludes (channels policy) channel
      then evaluatePolicy rest toolName channel sender
      else if set_and_excludes (users policy) sender
      then evaluatePolicy rest toolName channel sender
      else effect policy
  end.

(** When a rule matches, in the words of the specification: its tool field
    is the wildcard or the tool name, it has no channel set or the channel
    is a member of it, and it has no user set or the sender is a member of
    it. *)
Definition rule_matches (toolName channel sender : jsstring) (policy : ToolPolicy)
    : Prop :=
  (tool policy = lit "*" \/ tool policy = toolName)
  /\ (channels policy = None \/ exists l, channels policy = Some l /\ channel ∈ l)
  /\ (users policy = None \/ exists l, users policy = Some l /\ sender ∈ l).

End ToolPolicy.

(** ** Approval store ([approval.ts]) *)

Module Approval.
Import JS.

Inductive Status : Type := pending | allow | deny | expired.

(** The argument type of [decide]: ["allow" | "deny"]. *)
Inductive decision : Type := decide_allow | decide_deny.

Definition status_of_decision (d : decision) : Status :=
  match d with decide_allow => allow | decide_deny => deny end.

Record ApprovalRequest : Type := {
  id : jsstring;
  tool : jsstring;
  input : jsstring;
  session : jsstring;
  requester : jsstring;
  status : Status;
  createdAt : Z;
}.

(** [Omit<ApprovalRequest, "id" | "status" | "createdAt">] *)
Record NewRequest : Type := {
  new_tool : jsstring;
  new_input : jsstring;
  new_session : jsstring;
  new_requester : jsstring;
}.

Definition with_status (r : ApprovalRequest) (s : Status) : ApprovalRequest :=
  {| id := id r; tool := tool r; input := input r; session := session r;
     requester := requester r; status := s; createdAt := createdAt r |}.

(** The JSON values that the store keeps under the ["approvals"] namespace:
    approval records, and the array of ids under ["_pending_index"]. *)
Inductive json : Type :=
| Record_ (r : ApprovalRequest)
| Array_ (ids : list jsstring).

(** Modelled from the spec: the durable key-value store ([state.ts]) is not
    among the sources. Per the durable-store contract it offers
    [set(namespace, key, value)] and [get(namespace, key) -> value | absent];
    the approval store only ever uses the namespace ["approvals"], whose
    content is the finite map below. *)
Abbreviation store := (gmap jsstring json).

Definition PENDING_INDEX : jsstring := lit "_pending_index".

(** Store operations either complete with a value or raise; both leave a
    store behind. *)
Inductive outcome (A : Type) : Type :=
| Done (a : A) (s : store)
| Raised (s : store).
Arguments Done {A} a s.
Arguments Raised {A} s.

Definition M (A : Type) : Type := store -> outcome A.

Definition ret {A} (a : A) : M A := fun s => Done a s.

Definition bind {A B} (m : M A) (f : A -> M B) : M B :=
  fun s => match m s with
           | Done a s' => f a s'
           | Raised s' => Raised s'
           end.

Definition raise {A} : M A := fun s => Raised s.

Notation "'let*' x ':=' m 'in' k" := (bind m (fun x => k))
  (at level 10, x name, m at level 100, k at level 200).
Notation "m ';;' k" := (bind m (fun _ => k))
  (at level 100, k at level 200, right associativity).

Definition getJSON (key : jsstring) : M (option json) :=
  fun s => Done (s !! key) s.

Definition setJSON (key : jsstring) (v : json) : M unit :=
  fun s => Done tt (<[key := v]> s).

(** [getJSON<string[]>(NAMESPACE, "_pending_index") ?? []], used as an
    array right away ([push], [map], [filter], [for ... of]): a value that
    is not an array raises a [TypeError] there. *)
Definition read_index : M (list jsstring) :=
  let* v := getJSON PENDING_INDEX in
  match v with
  | None => ret []
  | Some (Array_ ids) => ret ids
  | Some (Record_ _) => raise
  end.

(** [randomUUID().slice(0, 8)] and [Date.now()] are inputs of the model:
    [uuid] is the string that [randomUUID] returned, [now] the clock. *)
Definition requestApproval (uuid : jsstring) (now : Z) (req : NewRequest)
    : M jsstring :=
  let id := slice0 uuid 8 in
  let approval :=
    {| id := id; tool := new_tool req; input := new_input req;
       session := new_session req; requester := new_requester req;
       status := pending; createdAt := now |} in
  setJSON id (Record_ approval) ;;
  (* Maintain pending index *)
  let* index := read_index in
  setJSON PENDING_INDEX (Array_ (index ++ [id])) ;;
  ret id.

Definition get (id : jsstring) : M (option json) := getJSON id.

Definition removeFromPendingIndex (id : jsstring) : M unit :=
  let* index := read_index in
  let cleaned := List.filter (fun i => negb (bool_decide (i = id))) index in
  setJSON PENDING_INDEX (Array_ cleaned).

(** [req.status === "pending"], for whatever [get] returned: the index
    array has no [status] property. *)
Definition is_pending (v : json) : bool :=
  match v with
  | Record_ r => match status r with pending => true | _ => false end
  | Array_ _ => false
  end.

Definition decide (id : jsstring) (d : decision) : M unit :=
  let* req := get id in
  match req with
  | Some (Record_ r) =>
      if is_pending (Record_ r) then
        setJSON id (Record_ (with_status r (status_of_decision d))) ;;
        removeFromPendingIndex id
      else ret tt
  | _ => ret tt
  end.

Fixpoint mapM {A B} (f : A -> M B) (l : list A) : M (list B) :=
  match l with
  | [] => ret []
  | x :: l' => let* y := f x in let* ys := mapM f l' in ret (y :: ys)
  end.

(** The type guard of [listPending]'s filter. *)
Definition pending_record (v : option json) : option ApprovalRequest :=
  match v with
  | Some (Record_ r) => if is_pending (Record_ r) then Some r else None
  | _ => None
  end.

Definition listPending : M (list ApprovalRequest) :=
  let* index := read_index in
  let* found := mapM get index in
  ret (omap pending_record found).

(** The [for (const id of index)] loop of [expireOlderThan]; [expiredIds]
    accumulates in push order. *)
Fixpoint expire_loop (now maxAgeMs : Z) (index expiredIds : list jsstring)
    : M (list jsstring) :=
  match index with
  | [] => ret expiredIds
  | id :: rest =>
      let* req := get id in
      match req with
      | Some (Record_ r) =>
          if is_pending (Record_ r) && (now - createdAt r >=? maxAgeMs) then
            setJSON id (Record_ (with_status r expired)) ;;
            expire_loop now maxAgeMs rest (expiredIds ++ [id])
          else expire_loop now maxAgeMs rest expiredIds
      | _ => expire_loop now maxAgeMs rest expiredIds
      end
  end.

Definition expireOlderThan (now maxAgeMs : Z) : M unit :=
  let* index := read_index in
  let* expiredIds := expire_loop now maxAgeMs index [] in
  match expiredIds with
  | _ :: _ =>
      let cleaned :=
        List.filter (fun id => negb (bool_decide (id ∈ expiredIds))) index in
      setJSON PENDING_INDEX (Array_ cleaned)
  | [] => ret tt
  end.

(** The store an outcome leaves behind. *)
Definition store_of {A} (o : outcome A) : store :=
  match o with Done _ s => s | Raised s => s end.

(** The mutating operations of the store, and runs of them. *)
Inductive op : Type :=
| RequestApproval (uuid : jsstring) (now : Z) (req : NewRequest)
| Decide (id : jsstring) (d : decision)
| ExpireOlderThan (now maxAgeMs : Z).

Definition step (s : store) (o : op) : store :=
  match o with
  | RequestApproval uuid now req => store_of (requestApproval uuid now req s)
  | Decide id d => store_of (decide id d s)
  | ExpireOlderThan now maxAgeMs => store_of (expireOlderThan now maxAgeMs s)
  end.

Definition run_ops (ops : list op) : store := fold_left step ops ∅.

(** The pending index as [listPending] and the other operations read it. *)
Definition pending_index (s : store) : list jsstring :=
  match s !! PENDING_INDEX with
  | Some (Array_ ids) => ids
  | _ => []
  end.

(** The status of the record stored under [id], if a record is. *)
Definition record_status (s : store) (id : jsstring) : option Status :=
  match s !! id with
  | Some (Record_ r) => Some (status r)
  | _ => None
  end.

(** The condition under which [expireOlderThan] expires [id]: its record
    exists, is pending, and is at least [maxAgeMs] old. *)
Definition due (now maxAgeMs : Z) (s : store) (id : jsstring) : bool :=
  match s !! id with
  | Some (Record_ r) => is_pending (Record_ r) && (now - createdAt r >=? maxAgeMs)
  | _ => false
  end.

(** What is stored under [k] once the records of [index] that are due have
    been marked expired. *)
Definition expire_at (now maxAgeMs : Z) (index : list jsstring) (s : store)
    (k : jsstring) : option json :=
  if bool_decide (k ∈ index) && due now maxAgeMs s k then
    match s !! k with
    | Some (Record_ r) => Some (Record_ (with_status r expired))
    | other => other
    end
  else s !! k.

(** The key of the pending index holds an array, or nothing. *)
Definition index_is_array (s : store) : Prop :=
  forall r, s !! PENDING_INDEX <> Some (Record_ r).

(** Every record is stored under its own id. *)
Definition keyed (s : store) : Prop :=
  forall k r, s !! k = Some (Record_ r) -> id r = k.

(** The invariant of the data model: an id is in the pending index exactly
    when its record is pending. *)
Definition index_consistent (s : store) : Prop :=
  forall id, id ∈ pending_index s <-> record_status s id = Some pending.

Definition invariant (s : store) : Prop :=
  index_is_array s /\ keyed s /\ index_consistent s.

End Approval.

(** ** Web UI routes ([channels/webui/routes.ts]) *)

Module Routes.
Import JS.

Inductive method : Type := GET | POST.

(** The handlers that [registerRoutes] installs. *)
Inductive handler : Type := health | chat | stream | dashboard.

Record route : Type := {
  route_method : method;
  route_url : jsstring;
  route_handler : handler;
}.

(** [registerRoutes(app, eventBus, state)]: the routes it adds to the
    application, in the order of the calls. *)
Definition registerRoutes (app : list route) : list route :=
  app ++
  [ {| route_method := GET; route_url := lit "/api/health"; route_handler := health |};
    {| route_method := POST; route_url := lit "/api/chat"; route_handler := chat |};
    {| route_method := GET; route_url := lit "/api/stream"; route_handler := stream |};
    {| route_method := GET; route_url := lit "/"; route_handler := dashboard |} ].

(** The application of [WebUIChannel.init]: a fresh instance with the
    routes of [registerRoutes]. *)
Definition webui_app : list route := registerRoutes [].

(** The segments of a path between slashes; [cur] is the segment being
    read. *)
Fixpoint split_slash (s cur : jsstring) : list jsstring :=
  match s with
  | [] => [cur]
  | c :: s' =>
      if (c =? 47)%N then cur :: split_slash s' [] else split_slash s' (cur ++ [c])
  end.

(** A segment of a route url that starts with a colon is a parameter and
    stands for any non-empty segment; any other segment stands for itself. *)
Definition segment_matches (pat seg : jsstring) : bool :=
  match pat with
  | 58%N :: _ => match seg with [] => false | _ :: _ => true end
  | _ => bool_decide (pat = seg)
  end.

Fixpoint segments_match (pats segs : list jsstring) : bool :=
  match pats, segs with
  | [], [] => true
  | p :: pats', s :: segs' => segment_matches p s && segments_match pats' segs'
  | _, _ => false
  end.

Definition method_eqb (a b : method) : bool :=
  match a, b with GET, GET | POST, POST => true | _, _ => false end.

Definition route_matches (m : method) (path : jsstring) (r : route) : bool :=
  method_eqb (route_method r) m
  && segments_match (split_slash (route_url r) []) (split_slash path []).

(** The handler that serves a request, if any; without one the framework
    answers 404. *)
Definition find_route (app : list route) (m : method) (path : jsstring)
    : option handler :=
  route_handler <$> List.find (route_matches m path) app.

End Routes.

(** ** NixOS commands ([tools/nixos/commands.ts]) *)

Module Commands.
Import JS SafeExec.

(** [runCommand] runs the program directly, with a fixed timeout and
    without consulting the allowlist. *)
Definition runCommand (cmd : jsstring) (args : list jsstring) : proc jsstring :=
  Spawn {| sp_file := cmd; sp_args := args; sp_timeout := 30000; sp_cwd := None |}
    (fun r =>
       match r with
       | Resolved res =>
           Return (Resolved
             (stdout res
              ++ (match stderr res with
                  | [] => []
                  | _ :: _ => lit (String "010" "STDERR: ") ++ stderr res
                  end)))
       | Rejected e =>
           Return (Resolved
             (trim (lit "Error: " ++ message e ++ [10%N]
                    ++ default [] (err_stdout e) ++ [10%N]
                    ++ default [] (err_stderr e))))
       end).

Definition flakeCheck (flakePath : jsstring) : proc jsstring :=
  runCommand (lit "nix") [lit "flake"; lit "check"; flakePath; lit "--no-build"].

Definition serviceStatus (serviceName : jsstring) : proc jsstring :=
  runCommand (lit "systemctl") [lit "status"; serviceName; lit "--no-pager"].

Definition listServices : proc jsstring :=
  runCommand (lit "systemctl")
    [lit "list-units"; lit "--type=service"; lit "--state=running";
     lit "--no-pager"; lit "--no-legend"].

Definition nixosOption (optionPath : jsstring) : proc jsstring :=
  runCommand (lit "nixos-option") [optionPath].

End Commands.

(** ** Plugin host ([core/plugin-host.ts]) *)

Module PluginHost.
Import JS ToolPolicy.

Section Host.
(** The input schema and the executor of a tool are opaque to the host. *)
Context {Schema Run : Type}.

Record Tool : Type := {
  name : jsstring;
  description : jsstring;
  inputSchema : Schema;
  run : Run;
}.

(** The fields of the host that tool registration and exposure use. *)
Record PluginHost : Type := {
  tools : list Tool;
  policies : list ToolPolicy;
}.

(** [new PluginHost(eventBus, state)] *)
Definition new_host : PluginHost := {| tools := []; policies := [] |}.

(** [ctx.registerTool(tool)], as [initAll] wires it: [this.tools.push(tool)]. *)
Definition registerTool (tool : Tool) (h : PluginHost) : PluginHost :=
  {| tools := tools h ++ [tool]; policies := policies h |}.

Definition registerExternalTool (tool : Tool) (h : PluginHost) : PluginHost :=
  {| tools := tools h ++ [tool]; policies := policies h |}.

Definition getTools (h : PluginHost) : list Tool := tools h.

Definition setPolicies (ps : list ToolPolicy) (h : PluginHost) : PluginHost :=
  {| tools := tools h; policies := ps |}.

Definition getToolsForContext (channel sender : jsstring) (h : PluginHost)
    : list Tool :=
  List.filter
    (fun tool =>
       let decision := evaluatePolicy (policies h) (name tool) channel sender in
       match decision with Deny => false | _ => true end)
    (tools h).

End Host.

Arguments Tool : clear implicits.
Arguments PluginHost : clear implicits.

End PluginHost.

(** ** Runs of the approval store *)

Module ApprovalRuns.
Import JS Approval.

(** The requests of a run that draw the id [id0]. *)
Definition draws (id0 : jsstring) (o : op) : Prop :=
  match o with
  | RequestApproval uuid _ _ => slice0 uuid 8 = id0
  | _ => False
  end.

(** The record that [requestApproval] stores. *)
Definition new_record (uuid : jsstring) (now : Z) (req : NewRequest)
    : ApprovalRequest :=
  {| id := slice0 uuid 8; tool := new_tool req; input := new_input req;
     session := new_session req; requester := new_requester req;
     status := pending; createdAt := now |}.

End ApprovalRuns.

(** ** Telegram pairing ([channels/telegram/pairing.ts]) *)

Module Pairing.
Import JS.

Record PairingManager : Type := {
  allowedUsers : list jsstring;
  pendingCodes : gmap jsstring jsstring;
  pairedUsers : gset jsstring;
}.

(** [new PairingManager(allowedUsers)] *)
Definition new_manager (allowed : list jsstring) : PairingManager :=
  {| allowedUsers := allowed;
     pendingCodes := ∅;
     pairedUsers := fold_left (fun paired u => paired ∪ {[u]}) allowed ∅ |}.

Definition isAuthorized (userId : jsstring) (pm : PairingManager) : bool :=
  if (length (allowedUsers pm) =? 0)%nat then true
  else bool_decide (userId ∈ pairedUsers pm).

(** [n] is what [randomInt(100000, 999999)] returned. *)
Definition requestPairing (n : Z) (userId : jsstring) (pm : PairingManager)
    : jsstring * PairingManager :=
  let code := number_to_string n in
  (code,
   {| allowedUsers := allowedUsers pm;
      pendingCodes := <[userId := code]> (pendingCodes pm);
      pairedUsers := pairedUsers pm |}).

Definition completePairing (userId code : jsstring) (pm : PairingManager)
    : bool * PairingManager :=
  match pendingCodes pm !! userId with
  | None => (false, pm)
  | Some expected =>
      (* [!expected || expected !== code]: the empty string is falsy *)
      if match expected with [] => true | _ :: _ => false end
         || negb (bool_decide (expected = code))
      then (false, pm)
      else
        (true,
         {| allowedUsers := allowedUsers pm;
            pendingCodes := delete userId (pendingCodes pm);
            pairedUsers := pairedUsers pm ∪ {[userId]} |})
  end.

(** Calls on a manager, and the manager after a run of them. *)
Inductive call : Type :=
| RequestPairing (n : Z) (userId : jsstring)
| CompletePairing (userId code : jsstring).

Definition step (pm : PairingManager) (c : call) : PairingManager :=
  match c with
  | RequestPairing n userId => snd (requestPairing n userId pm)
  | CompletePairing userId code => snd (completePairing userId code pm)
  end.

Definition user_of (c : call) : jsstring :=
  match c with
  | RequestPairing _ userId => userId
  | CompletePairing userId _ => userId
  end.

(** The check of the pairing test, [/^\d{6}$/]: six code units, each a
    decimal digit. *)
Definition six_digits (code : jsstring) : bool :=
  (length code =? 6)%nat && forallb (fun c => (48 <=? c) && (c <=? 57))%N code.

(** [six_digits] on the codes of [count] consecutive numbers from [lo]. *)
Definition codes_checked (lo : Z) (count : positive) : Z * bool :=
  Pos.iter (fun st => (fst st + 1, snd st && six_digits (number_to_string (fst st))))
    (lo, true) count.

End Pairing.

(** ** Conversation history ([ai/context.ts]) *)

Module Conversations.
Import JS.

Inductive role : Type := user | assistant.

Record MessageParam : Type := { message_role : role; content : jsstring }.

Definition MAX_MESSAGES : nat := 50.

(** Modelled from the spec: the durable key-value store ([state.ts]) is not
    among the sources; the conversation manager only uses the namespace
    ["conversations"], whose content is the finite map below. *)
Abbreviation store := (gmap jsstring (list MessageParam)).

Definition getMessages (conversationId : jsstring) (s : store) : list MessageParam :=
  default [] (s !! conversationId).

(** [messages.slice(-n)]: the last [n] elements, all of them when there
    are fewer. *)
Definition slice_last (n : nat) (messages : list MessageParam) : list MessageParam :=
  drop (length messages - n) messages.

Definition append (conversationId : jsstring) (message : MessageParam) (s : store)
    : store :=
  let messages := getMessages conversationId s in
  let messages := messages ++ [message] in
  let trimmed := slice_last MAX_MESSAGES messages in
  <[conversationId := trimmed]> s.

Definition addUserMessage (conversationId text : jsstring) (s : store) : store :=
  append conversationId {| message_role := user; content := text |} s.

Definition addAssistantMessage (conversationId text : jsstring) (s : store) : store :=
  append conversationId {| message_role := assistant; content := text |} s.

(** Calls on a manager: the conversation, and the message added. *)
Definition add (s : store) (c : jsstring * MessageParam) : store :=
  match message_role c.2 with
  | user => addUserMessage c.1 (content c.2) s
  | assistant => addAssistantMessage c.1 (content c.2) s
  end.

(** The messages that a run of calls adds to one conversation. *)
Definition sent_to (conversationId : jsstring) (calls : list (jsstring * MessageParam))
    : list MessageParam :=
  snd <$> List.filter (fun c => bool_decide (c.1 = conversationId)) calls.

End Conversations.

(** ** Regular expressions with capture groups

    [String.prototype.match] and [RegExp.prototype.exec] for patterns
    without flags, on the fragment the sources use: classes, literals, the
    anchors [^] and [$], groups, alternation, an optional group, and the
    greedy and lazy star of a class. Alternatives are tried in the order
    of the ECMAScript matcher (left before right, more before less for a
    greedy quantifier, less before more for a lazy one) and the first
    success is the result. *)

Module RegexCap.
Import JS.

Inductive rx : Type :=
| Eps
| Any (p : N -> bool)
| Bol
| Eol
| Seq (r1 r2 : rx)
| Alt (r1 r2 : rx)
| Group (i : nat) (r : rx)
| Greedy (p : N -> bool)
| Lazy (p : N -> bool)
| Opt (r : rx).

Abbreviation captures := (gmap nat jsstring).

(** A successful match: where it starts, the text matched, the groups
    that took part. *)
Record match_result : Type := {
  index : nat;
  matched : jsstring;
  groups : captures;
}.

Section Matcher.
Context {R : Type}.

Definition kont := captures -> option N -> jsstring -> option R.

Definition orelse (a b : option R) : option R :=
  match a with Some x => Some x | None => b end.

Fixpoint greedy_k (p : N -> bool) (k : kont) (caps : captures)
    (prev : option N) (s : jsstring) : option R :=
  match s with
  | c :: s' =>
      if p c then orelse (greedy_k p k caps (Some c) s') (k caps prev s)
      else k caps prev s
  | [] => k caps prev s
  end.

Fixpoint lazy_k (p : N -> bool) (k : kont) (caps : captures)
    (prev : option N) (s : jsstring) : option R :=
  orelse (k caps prev s)
    match s with
    | c :: s' => if p c then lazy_k p k caps (Some c) s' else None
    | [] => None
    end.

(** The groups inside a pattern: a quantifier resets them before each
    iteration. *)
Fixpoint groups_of (r : rx) : list nat :=
  match r with
  | Seq r1 r2 | Alt r1 r2 => groups_of r1 ++ groups_of r2
  | Group i r => i :: groups_of r
  | Opt r => groups_of r
  | _ => []
  end.

Fixpoint match_k (r : rx) (k : kont) (caps : captures) (prev : option N)
    (s : jsstring) : option R :=
  match r with
  | Eps => k caps prev s
  | Any p =>
      match s with
      | c :: s' => if p c then k caps (Some c) s' else None
      | [] => None
      end
  | Bol => match prev with None => k caps prev s | Some _ => None end
  | Eol => match s with [] => k caps prev s | _ :: _ => None end
  | Seq r1 r2 => match_k r1 (match_k r2 k) caps prev s
  | Alt r1 r2 => orelse (match_k r1 k caps prev s) (match_k r2 k caps prev s)
  | Group i r =>
      match_k r
        (fun caps' prev' s' =>
           k (<[i := take (length s - length s') s]> caps') prev' s')
        caps prev s
  | Greedy p => greedy_k p k caps prev s
  | Lazy p => lazy_k p k caps prev s
  | Opt r =>
      orelse
        (match_k r
           (fun caps' prev' s' =>
              (* an iteration that matches the empty text is refused *)
              if (length s' =? length s)%nat then None else k caps' prev' s')
           (foldr delete caps (groups_of r)) prev s)
        (k caps prev s)
  end.

End Matcher.

(** The first start position, from the left, at which the pattern
    matches. *)
Fixpoint exec_from (r : rx) (i : nat) (prev : option N) (s : jsstring)
    : option match_result :=
  @orelse match_result
    (match_k r
       (fun caps _ s' =>
          Some {| index := i; matched := take (length s - length s') s;
                  groups := caps |})
       ∅ prev s)
    match s with
    | c :: s' => exec_from r (S i) (Some c) s'
    | [] => None
    end.

(** [RegExp.prototype.exec], and [String.prototype.match] with a pattern
    that has no [g] flag. *)
Definition exec (r : rx) (s : jsstring) : option match_result :=
  exec_from r 0 None s.

(** [RegExp.prototype.test] *)
Definition test (r : rx) (s : jsstring) : bool :=
  match exec r s with Some _ => true | None => false end.

Definition Chr (c : N) : rx := Any (N.eqb c).

(** The literal text [l] as a pattern. *)
Definition literal (l : jsstring) : rx := fold_right (fun c r => Seq (Chr c) r) Eps l.

Definition text (s : string) : rx := literal (lit s).

(** The code unit before the position reached after reading [read] from a
    position whose previous code unit is [prev]. *)
Definition prev_after (prev : option N) (read : jsstring) : option N :=
  from_option Some prev (last read).

(** Where a quantified class has to stop: at the end of the subject or at
    a code unit outside the class. *)
Definition stops (p : N -> bool) (rest : jsstring) : Prop :=
  match rest with [] => True | c :: _ => p c = false end.

Definition Plus (p : N -> bool) : rx := Seq (Any p) (Greedy p).

Definition LazyPlus (p : N -> bool) : rx := Seq (Any p) (Lazy p).

Definition not_space (c : N) : bool := negb (is_space c).

Definition is_digit (c : N) : bool := ((48 <=? c) && (c <=? 57))%N.

End RegexCap.

(** ** Telegram approval commands ([channels/telegram/approval.ts]) *)

Module ApprovalCommand.
Import JS RegexCap.

(** [/^\/(allow|deny)\s+(\S+)/] *)
Definition command_pattern : rx :=
  Seq Bol
    (Seq (Chr 47)
       (Seq (Group 1 (Alt (text "allow") (text "deny")))
          (Seq (Plus is_space) (Group 2 (Plus not_space))))).

(** The object that [parseApprovalCommand] returns; a group that took no
    part in the match would be [undefined]. *)
Record command : Type := {
  decision : option jsstring;
  id : option jsstring;
}.

Definition parseApprovalCommand (text : jsstring) : option command :=
  match exec command_pattern text with
  | None => None
  | Some m => Some {| decision := groups m !! 1%nat; id := groups m !! 2%nat |}
  end.

End ApprovalCommand.

(** ** Telegram text messages ([channels/telegram/index.ts]) *)

Module Telegram.
Import JS RegexCap ApprovalCommand Pairing.

(** [/^\d{6}$/] *)
Definition code_pattern : rx :=
  Seq Bol
    (Seq (Any is_digit) (Seq (Any is_digit) (Seq (Any is_digit)
       (Seq (Any is_digit) (Seq (Any is_digit) (Seq (Any is_digit) Eol)))))).

Record NixClawMessage : Type := {
  msg_id : jsstring;
  channel : jsstring;
  sender : jsstring;
  msg_text : jsstring;
  timestamp : Z;
}.

(** What the handler of a text message does, in order. *)
Inductive effect : Type :=
| Reply (text : jsstring)
| LogInfo (text : jsstring)
| EmitApprovalDecide (cmd : command)
| EmitMessageIncoming (msg : NixClawMessage).

(** A field of a command in a template literal. *)
Definition render (field : option jsstring) : jsstring :=
  default (lit "undefined") field.

(** The handler [bot.on("message:text", ...)] of [init]: [userId] is
    [String(gramCtx.from.id)], [text] and [date] come from the message, [n]
    and [uuid] are what [randomInt] and [randomUUID] return when called. *)
Definition on_text (n : Z) (uuid : jsstring) (userId text : jsstring) (date : Z)
    (pairing : PairingManager) : list effect * PairingManager :=
  (* Check if user is authorized via pairing *)
  if negb (isAuthorized userId pairing) then
    (* Check if this is a pairing code attempt (6 digits) *)
    match exec code_pattern text with
    | Some _ =>
        let '(success, pairing') := completePairing userId text pairing in
        if success then
          ([Reply ([10003%N]
                   ++ lit " Pairing successful! You now have access to NixClaw.")],
           pairing')
        else
          ([Reply ([10007%N] ++ lit " Invalid pairing code. Try again.")], pairing')
    | None =>
        (* Unknown user: generate pairing code and log it *)
        let '(code, pairing') := requestPairing n userId pairing in
        ([LogInfo (lit "Pairing code for user " ++ userId ++ lit ": " ++ code);
          Reply ([55357%N; 56592%N]
                 ++ lit " Access requires pairing. A 6-digit code has been generated "
                 ++ [8212%N]
                 ++ lit " check the NixClaw server logs or ask the admin.")],
         pairing')
    end
  else
    (* Check for approval commands *)
    match parseApprovalCommand text with
    | Some approvalCmd =>
        ([EmitApprovalDecide approvalCmd;
          Reply ([10003%N] ++ lit " Sent " ++ render (decision approvalCmd)
                 ++ lit " for request " ++ render (id approvalCmd))],
         pairing)
    | None =>
        ([EmitMessageIncoming
            {| msg_id := uuid; channel := lit "telegram"; sender := userId;
               msg_text := text; timestamp := date * 1000 |}],
         pairing)
    end.

(** The effects that hand something on to the rest of the system. *)
Definition is_emit (e : effect) : bool :=
  match e with
  | EmitApprovalDecide _ | EmitMessageIncoming _ => true
  | _ => false
  end.

End Telegram.

(** ** Pre-tool-use hook ([scripts/nixclaw-hook.sh]) *)

Module Hook.
Import JS.

(** What a [curl -sf] call gives: failure (no connection, or an HTTP
    error status), or the body of the response. *)
Inductive curl_result : Type :=
| CurlFails
| CurlBody (body : jsstring).

(** What a [jq -r] filter gives inside [$(...)]: failure, or the text it
    printed, without the trailing newline. *)
Inductive jq_result : Type :=
| JqFails
| JqPrints (out : jsstring).

(** How the script ends: with one line on standard output and status 0,
    or stopped by [set -e] with nothing printed. *)
Inductive hook_result : Type :=
| Printed (line : jsstring)
| Stopped.

Definition decision_line (d : jsstring) : jsstring :=
  lit "{" ++ [34%N] ++ lit "decision" ++ [34%N] ++ lit ": " ++ [34%N] ++ d
  ++ [34%N] ++ lit "}".

Section Script.
(** The two filters of the script: [jq -r '.id'] and
    [jq -r '.status // "pending"'], as functions of their input. *)
Context (jq_id jq_status : jsstring -> jq_result).

(** The loop [for i in $(seq 1 "$TIMEOUT")], from iteration [i], with
    [remaining] iterations to go; [poll i] is the outcome of the i-th
    [curl] for the request. *)
Fixpoint poll_loop (poll : nat -> curl_result) (i remaining : nat) : hook_result :=
  match remaining with
  | O =>
      (* Timeout: default deny (fail-closed) *)
      Printed (decision_line (lit "deny"))
  | S remaining' =>
      let STATUS :=
        match poll i with
        | CurlFails => lit "{}"
        | CurlBody body => body
        end in
      match jq_status STATUS with
      | JqFails => Stopped
      | JqPrints DECISION =>
          if bool_decide (DECISION = lit "allow") || bool_decide (DECISION = lit "deny")
          then Printed (decision_line DECISION)
          else poll_loop poll (S i) remaining'
      end
  end.

(** The script: [jq_installed] is the outcome of [command -v jq],
    [TIMEOUT] the value of [NIXCLAW_APPROVAL_TIMEOUT] (300 by default),
    [post] the outcome of the request for approval, [poll id i] the outcome
    of the i-th status request for [id]. *)
Definition hook (jq_installed : bool) (TIMEOUT : nat) (post : curl_result)
    (poll : jsstring -> nat -> curl_result) : hook_result :=
  if negb jq_installed then Printed (decision_line (lit "deny"))
  else
    match post with
    | CurlFails => Printed (decision_line (lit "deny"))
    | CurlBody RESPONSE =>
        match jq_id RESPONSE with
        | JqFails => Stopped
        | JqPrints REQUEST_ID =>
            if bool_decide (REQUEST_ID = []) || bool_decide (REQUEST_ID = lit "null")
            then Printed (decision_line (lit "deny"))
            else poll_loop (poll REQUEST_ID) 1 TIMEOUT
        end
    end.

(** What the i-th status request makes of [DECISION]. *)
Definition decision_at (poll : nat -> curl_result) (i : nat) : jq_result :=
  jq_status match poll i with CurlFails => lit "{}" | CurlBody body => body end.

(** A poll that lets the loop go on: the filter printed something other
    than [allow] and [deny]. *)
Definition undecided (poll : nat -> curl_result) (i : nat) : Prop :=
  exists d, decision_at poll i = JqPrints d /\ d <> lit "allow" /\ d <> lit "deny".

End Script.

End Hook.

(** ** NixOS generations ([tools/nixos/generations.ts]) *)

Module Generations.
Import JS RegexCap.

(** [.] without the [s] flag: anything but a line terminator. *)
Definition dot (c : N) : bool :=
  negb (existsb (N.eqb c) [10; 13; 8232; 8233]%N).

(** A digit or a dot. *)
Definition digit_or_dot (c : N) : bool := is_digit c || (c =? 46)%N.

(** The pattern of [nameVersion]: from the start, a lazy run of [.] as the
    name, a dash, then a digit followed by any digits and dots as the
    version, up to the end. *)
Definition name_version_pattern : rx :=
  Seq Bol
    (Seq (Group 1 (LazyPlus dot))
       (Seq (Chr 45)
          (Seq (Group 2 (Seq (Any is_digit) (Greedy digit_or_dot))) Eol))).

Record NameVersion : Type := { name : jsstring; version : jsstring }.

(** The text of a group that every match of the pattern goes through. *)
Definition group_text (m : match_result) (i : nat) : jsstring :=
  default [] (groups m !! i).

Definition nameVersion (s : jsstring) : option NameVersion :=
  match exec name_version_pattern s with
  | Some m => Some {| name := group_text m 1; version := group_text m 2 |}
  | None => None
  end.

(** A [Map<string, string>]: its entries in insertion order. [set] on a
    key that is present replaces the value where the entry stands. *)
Abbreviation Map := (list (jsstring * jsstring)).

Fixpoint map_get (k : jsstring) (m : Map) : option jsstring :=
  match m with
  | [] => None
  | (k', v) :: m' => if bool_decide (k' = k) then Some v else map_get k m'
  end.

Definition map_has (k : jsstring) (m : Map) : bool :=
  match map_get k m with Some _ => true | None => false end.

Fixpoint map_set (k v : jsstring) (m : Map) : Map :=
  match m with
  | [] => [(k, v)]
  | (k', v') :: m' =>
      if bool_decide (k' = k) then (k', v) :: m' else (k', v') :: map_set k v m'
  end.

(** The loops that fill [oldMap] and [newMap]; a [Set<string>] is given
    by its elements in iteration order. *)
Definition version_map (pkgs : list jsstring) : Map :=
  fold_left
    (fun m p =>
       match nameVersion p with
       | Some nv => map_set (name nv) (version nv) m
       | None => m
       end)
    pkgs [].

Record Change : Type := { pkg : jsstring; from_ : jsstring; to_ : jsstring }.

Record GenerationDiff : Type := {
  added : list jsstring;
  removed : list jsstring;
  changed : list Change;
}.

Definition dashed (name ver : jsstring) : jsstring := name ++ lit "-" ++ ver.

(** The loop over [newMap]: [acc] is [(added, changed)]. *)
Definition compare_new (oldMap : Map) (acc : list jsstring * list Change)
    (entry : jsstring * jsstring) : list jsstring * list Change :=
  let '(name, ver) := entry in
  match map_get name oldMap with
  | None | Some [] => (acc.1 ++ [dashed name ver], acc.2)
  | Some oldVer =>
      if negb (bool_decide (oldVer = ver))
      then (acc.1, acc.2 ++ [{| pkg := name; from_ := oldVer; to_ := ver |}])
      else acc
  end.

(** The loop over [oldMap]. *)
Definition compare_old (newMap : Map) (removed : list jsstring)
    (entry : jsstring * jsstring) : list jsstring :=
  let '(name, ver) := entry in
  if negb (map_has name newMap) then removed ++ [dashed name ver] else removed.

Definition diffGenerationPaths (oldPkgs newPkgs : list jsstring) : GenerationDiff :=
  let oldMap := version_map oldPkgs in
  let newMap := version_map newPkgs in
  let '(added, changed) := fold_left (compare_new oldMap) newMap ([], []) in
  let removed := fold_left (compare_old newMap) oldMap [] in
  {| added := added; removed := removed; changed := changed |}.

(** The version that a closure gives a package name: that of the last
    element, in iteration order, that [nameVersion] splits into this name
    and a version. *)
Fixpoint latest_version (pkgs : list jsstring) (n : jsstring) : option jsstring :=
  match pkgs with
  | [] => None
  | p :: rest =>
      match latest_version rest n with
      | Some v => Some v
      | None =>
          match nameVersion p with
          | Some nv => if bool_decide (name nv = n) then Some (version nv) else None
          | None => None
          end
      end
  end.

End Generations.

(** * Properties *)

Section RegexProps.
Import JS Regex.

Lemma star_k_correct (p : N -> bool) (k : kont) (s : jsstring) :
  forall prev,
    star_k p k prev s = true <->
    exists prev' s', matches (Star p) prev s prev' s' /\ k prev' s' = true.
Proof.
  induction s as [|c s IH]; intros prev; cbn [star_k].
  - split.
    + intros Hk. exists prev, []. split; [constructor|done].
    + intros (prev' & s' & Hm & Hk). inversion Hm; subst. done.
  - destruct (p c) eqn:Hp.
    + rewrite orb_true_iff, IH. split.
      * intros [(prev' & s' & Hm & Hk)|Hk].
        -- exists prev', s'. split; [by constructor|done].
        -- exists prev, (c :: s). split; [constructor|done].
      * intros (prev' & s' & Hm & Hk). inversion Hm; subst; eauto.
    + split.
      * intros Hk. exists prev, (c :: s). split; [constructor|done].
      * intros (prev' & s' & Hm & Hk). inversion Hm; subst; [done|congruence].
Qed.

(** The matcher agrees with the relation: it succeeds exactly when the
    pattern matches up to a position that the continuation accepts. *)
Lemma match_k_correct (r : regex) :
  forall (k : kont) prev s,
    match_k r k prev s = true <->
    exists prev' s', matches r prev s prev' s' /\ k prev' s' = true.
Proof.
  induction r as [|c|p|p| |r1 IH1 r2 IH2|r1 IH1 r2 IH2]; intros k prev s;
    cbn [match_k].
  - split.
    + intros Hk. exists prev, s. split; [constructor|done].
    + intros (prev' & s' & Hm & Hk). inversion Hm; subst. done.
  - destruct s as [|x s].
    + split; [done|]. intros (prev' & s' & Hm & _). inversion Hm.
    + rewrite andb_true_iff, N.eqb_eq. split.
      * intros [-> Hk]. exists (Some c), s. split; [constructor|done].
      * intros (prev' & s' & Hm & Hk). inversion Hm; subst. done.
  - destruct s as [|x s].
    + split; [done|]. intros (prev' & s' & Hm & _). inversion Hm.
    + rewrite andb_true_iff. split.
      * intros [Hp Hk]. exists (Some x), s. split; [by constructor|done].
      * intros (prev' & s' & Hm & Hk). inversion Hm; subst. done.
  - apply star_k_correct.
  - rewrite andb_true_iff. split.
    + intros [Hb Hk]. exists prev, s. split; [|done]. constructor.
      intros E. rewrite E in Hb. by destruct (word_at (head s)).
    + intros (prev' & s' & Hm & Hk). inversion Hm; subst. split; [|done].
      destruct (word_at prev'), (word_at (head s')); done.
  - rewrite IH1. split.
    + intros (prev1 & s1 & Hm1 & Hk1). apply IH2 in Hk1 as (prev2 & s2 & Hm2 & Hk).
      exists prev2, s2. split; [by econstructor|done].
    + intros (prev2 & s2 & Hm & Hk). inversion Hm; subst.
      do 2 eexists. split; [eassumption|]. apply IH2. eauto.
  - rewrite orb_true_iff, IH1, IH2. split.
    + intros [(prev' & s' & Hm & Hk)|(prev' & s' & Hm & Hk)];
        exists prev', s'; (split; [|done]).
      * by apply matches_Alt_l.
      * by apply matches_Alt_r.
    + intros (prev' & s' & Hm & Hk). inversion Hm; subst; eauto.
Qed.

(** [test] succeeds exactly when the pattern matches somewhere in the
    subject: after some prefix [before], whose last code unit is the one
    that [\b] sees before the match. *)
Lemma test_correct (r : regex) (s : jsstring) :
  test r s = true <->
  exists before rest prev' s',
    s = before ++ rest /\ matches r (last before) rest prev' s'.
Proof.
  unfold test.
  assert (forall s prev,
            search r prev s = true <->
            exists before rest prev' s',
              s = before ++ rest
              /\ matches r (from_option Some prev (last before)) rest prev' s')
    as Hsearch.
  { clear s. induction s as [|c s IH]; intros prev; cbn [search];
      rewrite orb_true_iff, match_k_correct.
    - split.
      + intros [(prev' & s' & Hm & _)|?]; [|done].
        exists [], [], prev', s'. done.
      + intros (before & rest & prev' & s' & E & Hm).
        symmetry in E. apply app_eq_nil in E as [-> ->]. left. eauto.
    - rewrite IH. split.
      + intros [(prev' & s' & Hm & _)|(before & rest & prev' & s' & -> & Hm)].
        * exists [], (c :: s), prev', s'. done.
        * exists (c :: before), rest, prev', s'. split; [done|].
          destruct before as [|b before]; [done|].
          rewrite last_cons_cons.
          destruct (last (b :: before)) eqn:El; [done|].
          by apply last_None in El.
      + intros (before & rest & prev' & s' & E & Hm).
        destruct before as [|b before]; cbn in E.
        * subst rest. left. eauto.
        * injection E as -> ->. right.
          exists before, rest, prev', s'. split; [done|].
          destruct before as [|b' before]; [done|].
          rewrite last_cons_cons in Hm.
          destruct (last (b' :: before)) eqn:El; [done|].
          by apply last_None in El. }
  rewrite Hsearch. split.
  - intros (before & rest & prev' & s' & -> & Hm).
    exists before, rest, prev', s'. split; [done|].
    by destruct (last before).
  - intros (before & rest & prev' & s' & -> & Hm).
    exists before, rest, prev', s'. split; [done|].
    by destruct (last before).
Qed.

(** A literal pattern matches its own text and nothing else. *)
Lemma matches_literal (l : jsstring) :
  forall prev s prev' s',
    matches (fold_right (fun c r => Cat (Lit c) r) Eps l) prev s prev' s' ->
    s = l ++ s'.
Proof.
  induction l as [|c l IH]; intros prev s prev' s' Hm; cbn [fold_right] in Hm.
  - inversion Hm; subst. done.
  - inversion Hm as [| | | | | |r1 r2 p0 s0 p1 s1 p2 s2 Hc Hrest| |]; subst.
    inversion Hc; subst. cbn [app]. f_equal. by eapply IH.
Qed.

End RegexProps.

Section SafeExecProps.
Import JS Regex SafeExec.

Lemma scan_patterns_true (patterns : list regex) (fullArgs : jsstring) :
  scan_patterns patterns fullArgs = true <->
  forall pattern, pattern ∈ patterns -> test pattern fullArgs = false.
Proof.
  induction patterns as [|p ps IH]; simpl.
  - split; [|done]. intros _ q Hq. inversion Hq.
  - destruct (test p fullArgs) eqn:Hp.
    + split; [done|]. intros H. rewrite <- Hp. symmetry. apply H. left.
    + rewrite IH. split.
      * intros H q Hq. inversion Hq; subst; auto.
      * intros H q Hq. apply H. by right.
Qed.

Lemma isCommandAllowed_true (command : jsstring) (args : list jsstring) :
  isCommandAllowed command args = true <->
  command ∈ ALLOWED_COMMANDS /\
  forall pattern, pattern ∈ BLOCKED_PATTERNS ->
    test pattern (join (lit " ") args) = false.
Proof.
  unfold isCommandAllowed, allowed_has.
  destruct (bool_decide_reflect (command ∈ ALLOWED_COMMANDS)) as [Hin|Hout];
    cbn [negb].
  - rewrite scan_patterns_true. tauto.
  - split; [done|]. tauto.
Qed.

(** C1. [isCommandAllowed(command, args)] is true exactly when [command]
    is a member of the allowlist and no blocked pattern matches the
    space-joined arguments. In particular it is false for every command
    outside the allowlist whatever the arguments, and false for an
    allowlisted command whenever some blocked pattern matches the joined
    arguments. *)
Theorem isCommandAllowed_spec :
  forall (command : jsstring) (args : list jsstring),
    (isCommandAllowed command args = true <->
       command ∈ ALLOWED_COMMANDS /\
       forall pattern, pattern ∈ BLOCKED_PATTERNS ->
         test pattern (join (lit " ") args) = false)
    /\ (command ∉ ALLOWED_COMMANDS -> isCommandAllowed command args = false)
    /\ (command ∈ ALLOWED_COMMANDS ->
        (exists pattern, pattern ∈ BLOCKED_PATTERNS /\
           test pattern (join (lit " ") args) = true) ->
        isCommandAllowed command args = false).
Proof.
  intros command args. split; [apply isCommandAllowed_true|]. split.
  - intros Hout. apply not_true_is_false. rewrite isCommandAllowed_true. tauto.
  - intros _ (p & Hp & Ht). apply not_true_is_false.
    rewrite isCommandAllowed_true. intros [_ H]. rewrite (H p Hp) in Ht. done.
Qed.

(** C2. When [isCommandAllowed(command, args)] is false, [safeExec]
    resolves (it does not reject) with a text that begins with ["BLOCKED:"],
    and it does so without spawning any subprocess, whatever the operating
    system would have answered. *)
Theorem safeExec_blocked :
  forall (command : jsstring) (args : list jsstring) (options : SafeExecOptions),
    isCommandAllowed command args = false ->
    exists text,
      safeExec command args options = Return (Resolved text)
      /\ startsWith (lit "BLOCKED:") text = true
      /\ forall os, run os (safeExec command args options) = ([], Resolved text).
Proof.
  intros command args options Hno. unfold safeExec. rewrite Hno. cbn [negb].
  eexists. split; [reflexivity|]. split; [reflexivity|].
  intros os. reflexivity.
Qed.

Lemma safeExec_blocked_witness :
  isCommandAllowed (lit "rm") [lit "-rf"; lit "/"] = false
  /\ exists text,
      safeExec (lit "rm") [lit "-rf"; lit "/"] no_options = Return (Resolved text)
      /\ startsWith (lit "BLOCKED:") text = true
      /\ forall os,
          run os (safeExec (lit "rm") [lit "-rf"; lit "/"] no_options)
          = ([], Resolved text).
Proof.
  split; [reflexivity|].
  apply (safeExec_blocked (lit "rm") [lit "-rf"; lit "/"] no_options).
  reflexivity.
Defined.

Lemma length_slice0 (s : jsstring) (e : Z) :
  0 <= e -> Z.of_nat (length (slice0 s e)) <= e.
Proof.
  intros He. unfold slice0.
  destruct (Z.ltb_spec e 0) as [?|_]; [lia|].
  rewrite length_take. lia.
Qed.

(** On the success path the output is cut down to [maxBytes] code units
    before the notice is appended. *)
Lemma safeExec_success_bounded
    (command : jsstring) (args : list jsstring) (options : SafeExecOptions)
    (os : SpawnRequest -> settled ExecResult) (res : ExecResult) :
  let limit := default 10240 (maxBytes options) in
  0 <= limit ->
  isCommandAllowed command args = true ->
  (forall rq, os rq = Resolved res) ->
  exists text,
    snd (run os (safeExec command args options)) = Resolved text
    /\ Z.of_nat (length text)
       <= limit + Z.of_nat (length (truncation_notice limit)).
Proof.
  intros limit Hlimit Hok Hos. unfold safeExec. rewrite Hok. cbn [negb run].
  rewrite Hos. cbn [run snd]. eexists. split; [reflexivity|].
  fold limit.
  match goal with |- context [if ?b then _ else _] => destruct b eqn:Hcmp end.
  - rewrite length_app, Nat2Z.inj_add.
    pose proof (length_slice0
      (stdout res ++ match stderr res with
                     | [] => []
                     | _ :: _ => lit (String "010" "STDERR: ") ++ stderr res
                     end) limit Hlimit).
    lia.
  - lia.
Qed.

(** C3. The bound does not hold on the failure path: a command that exits
    with a non-zero status is rendered with its whole message, standard
    output and standard error, and [maxBytes] is not consulted. Here
    [ls /nonexistent] with [maxBytes = 10] returns 160 code units, more
    than the 10 + 28 that the bound allows. *)
Theorem safeExec_failure_exceeds_bound :
  let options := {| maxBytes := Some 10; timeout := None; cwd := None |} in
  let stderr_text :=
    lit (String.append
           "ls: cannot access '/nonexistent': No such file or directory"
           (String "010" "")) in
  let failure :=
    {| message := lit (String.append "Command failed: ls /nonexistent"
                         (String "010" "")) ++ stderr_text;
       err_stdout := Some [];
       err_stderr := Some stderr_text |} in
  exists text,
    isCommandAllowed (lit "ls") [lit "/nonexistent"] = true
    /\ run (fun _ => Rejected failure)
         (safeExec (lit "ls") [lit "/nonexistent"] options)
       = ([ {| sp_file := lit "ls"; sp_args := [lit "/nonexistent"];
               sp_timeout := 30000; sp_cwd := None |} ], Resolved text)
    /\ Z.of_nat (length text) = 160
    /\ Z.of_nat (length (truncation_notice 10)) = 28
    /\ Z.of_nat (length text) > 10 + Z.of_nat (length (truncation_notice 10)).
Proof.
  eexists. split; [reflexivity|]. split; [vm_compute; reflexivity|].
  vm_compute. repeat split.
Qed.

(** C10. [nixos-rebuild switch] (likewise [boot] and [test]) passes the
    check: the patterns are tested against the joined arguments only, here
    the single word, so two allowlisted commands are always treated alike,
    and the [nixos-rebuild] pattern, which can match only when the
    arguments themselves spell [nixos-rebuild], does not match; [safeExec]
    then spawns the command. *)
Theorem nixos_rebuild_switch_allowed :
  let subcommands := [lit "switch"; lit "boot"; lit "test"] in
  Forall (fun sub =>
      join (lit " ") [sub] = sub
      /\ test nixos_rebuild_pattern (join (lit " ") [sub]) = false
      /\ isCommandAllowed (lit "nixos-rebuild") [sub] = true
      /\ forall options os,
          fst (run os (safeExec (lit "nixos-rebuild") [sub] options))
          = [ {| sp_file := lit "nixos-rebuild"; sp_args := [sub];
                 sp_timeout := default 30000 (timeout options);
                 sp_cwd := cwd options |} ])
    subcommands
  /\ nixos_rebuild_pattern ∈ BLOCKED_PATTERNS
  /\ lit "nixos-rebuild" ∈ ALLOWED_COMMANDS
  /\ (forall command command' args,
        command ∈ ALLOWED_COMMANDS -> command' ∈ ALLOWED_COMMANDS ->
        isCommandAllowed command args = isCommandAllowed command' args)
  /\ (forall fullArgs,
        test nixos_rebuild_pattern fullArgs = true ->
        exists before after,
          fullArgs = before ++ lit "nixos-rebuild" ++ after).
Proof.
  cbn zeta. split; [|split; [|split; [|split]]].
  - repeat constructor; try reflexivity;
      intros options os; unfold safeExec;
      match goal with
      | |- context [isCommandAllowed ?c ?a] =>
          replace (isCommandAllowed c a) with true by (vm_compute; reflexivity)
      end;
      cbn [negb run]; destruct (os _); reflexivity.
  - unfold BLOCKED_PATTERNS. do 10 apply list_elem_of_further. left.
  - apply (bool_decide_unpack _). vm_compute. exact I.
  - intros command command' args Hc Hc'. unfold isCommandAllowed, allowed_has.
    rewrite !bool_decide_eq_true_2 by done. reflexivity.
  - intros fullArgs (before & rest & prev' & s' & -> & Hm)%test_correct.
    unfold nixos_rebuild_pattern in Hm.
    inversion Hm as [| | | | | |r1 r2 p0 s0 p1 s1 p2 s2 Hname _| |]; subst.
    apply matches_literal in Hname. subst rest. by exists before, s1.
Qed.

(** The expectations of [safe-exec.test.ts] on [isCommandAllowed]. *)
Example allows_whitelisted_commands :
  isCommandAllowed (lit "ps") [lit "aux"] = true
  /\ isCommandAllowed (lit "free") [lit "-h"] = true
  /\ isCommandAllowed (lit "hostname") [] = true.
Proof. repeat split. Qed.

Example blocks_non_whitelisted_commands :
  isCommandAllowed (lit "rm") [lit "-rf"; lit "/"] = false
  /\ isCommandAllowed (lit "dd") [lit "if=/dev/zero"] = false
  /\ isCommandAllowed (lit "sudo") [lit "anything"] = false.
Proof. repeat split. Qed.

Example blocks_dangerous_arguments :
  isCommandAllowed (lit "ls") [lit "; rm -rf /"] = false
  /\ isCommandAllowed (lit "cat") [lit "$(whoami)"] = false
  /\ isCommandAllowed (lit "find") [lit "-exec"; lit "rm"] = false.
Proof. repeat split. Qed.

End SafeExecProps.

Section ToolPolicyProps.
Import JS ToolPolicy.

Lemma set_and_excludes_false (xs : option (list jsstring)) (x : jsstring) :
  set_and_excludes xs x = false <->
  xs = None \/ exists l, xs = Some l /\ x ∈ l.
Proof.
  destruct xs as [l|]; simpl.
  - rewrite negb_false_iff, bool_decide_eq_true. split.
    + intros H. right. eauto.
    + intros [?|(l' & [= <-] & H)]; done.
  - split; [by left|done].
Qed.

Lemma evaluatePolicy_match (policy : ToolPolicy) (rest : list ToolPolicy)
    (toolName channel sender : jsstring) :
  rule_matches toolName channel sender policy ->
  evaluatePolicy (policy :: rest) toolName channel sender = effect policy.
Proof.
  intros (Ht & Hc & Hu). cbn [evaluatePolicy].
  apply set_and_excludes_false in Hc, Hu. rewrite Hc, Hu.
  destruct Ht as [Ht|Ht]; rewrite Ht.
  - rewrite (bool_decide_eq_true_2 (lit "*" = lit "*")) by done. reflexivity.
  - rewrite (bool_decide_eq_true_2 (toolName = toolName)) by done.
    rewrite andb_false_r. reflexivity.
Qed.

Lemma evaluatePolicy_skip (policy : ToolPolicy) (rest : list ToolPolicy)
    (toolName channel sender : jsstring) :
  ~ rule_matches toolName channel sender policy ->
  evaluatePolicy (policy :: rest) toolName channel sender
  = evaluatePolicy rest toolName channel sender.
Proof.
  intros Hno. cbn [evaluatePolicy].
  destruct (negb (bool_decide (tool policy = lit "*"))
            && negb (bool_decide (tool policy = toolName))) eqn:Ht; [done|].
  destruct (set_and_excludes (channels policy) channel) eqn:Hc; [done|].
  destruct (set_and_excludes (users policy) sender) eqn:Hu; [done|].
  exfalso. apply Hno. split; [|split].
  - apply andb_false_iff in Ht.
    destruct Ht as [Ht|Ht]; apply negb_false_iff, bool_decide_eq_true in Ht; tauto.
  - by apply set_and_excludes_false.
  - by apply set_and_excludes_false.
Qed.

(** C4. [evaluatePolicy] returns the effect of the first rule, in list
    order, that matches, and ["allow"] when no rule matches; so it returns
    ["allow"] on the empty list for every tool, channel and sender. With
    the two rules of the specification's example, sender [A] is allowed
    and every other sender is denied. *)
Theorem evaluatePolicy_first_match :
  forall (policies : list ToolPolicy) (toolName channel sender : jsstring),
    (forall before policy after,
        policies = before ++ policy :: after ->
        Forall (fun p => ~ rule_matches toolName channel sender p) before ->
        rule_matches toolName channel sender policy ->
        evaluatePolicy policies toolName channel sender = effect policy)
    /\ (Forall (fun p => ~ rule_matches toolName channel sender p) policies ->
        evaluatePolicy policies toolName channel sender = Allow)
    /\ evaluatePolicy [] toolName channel sender = Allow
    /\ (forall X A B : jsstring,
          let rules :=
            [ {| tool := X; effect := Allow; channels := None; users := Some [A] |};
              {| tool := X; effect := Deny; channels := None; users := None |} ] in
          evaluatePolicy rules X channel A = Allow
          /\ (B <> A -> evaluatePolicy rules X channel B = Deny)).
Proof.
  intros policies toolName channel sender. repeat split.
  - intros before policy after -> Hbefore Hm.
    induction Hbefore as [|p before Hp _ IH]; simpl app.
    + by apply evaluatePolicy_match.
    + by rewrite evaluatePolicy_skip.
  - intros Hnone. induction Hnone as [|p rest Hp _ IH]; [done|].
    by rewrite evaluatePolicy_skip.
  - apply evaluatePolicy_match. split; [by right|]. split; [by left|].
    right. exists [A]. split; [done|]. left.
  - intros HBA. rewrite evaluatePolicy_skip.
    + apply evaluatePolicy_match. split; [by right|]. split; by left.
    + intros (_ & _ & [Hu|(l & [= <-] & Hin)]); [done|].
      apply list_elem_of_singleton in Hin. done.
Qed.

(** The expectations of [tool-policy.test.ts]. *)
Example blocks_tools_in_deny_list :
  let policies :=
    [ {| tool := lit "nixclaw_query"; effect := Deny;
         channels := Some [lit "telegram"]; users := None |} ] in
  evaluatePolicy policies (lit "nixclaw_query") (lit "telegram") (lit "user1") = Deny
  /\ evaluatePolicy policies (lit "nixclaw_query") (lit "webui") (lit "user1") = Allow.
Proof. split; reflexivity. Qed.

Example supports_wildcard_tool_matching :
  let policies :=
    [ {| tool := lit "*"; effect := Deny; channels := Some [lit "telegram"];
         users := Some [lit "unknown-user"] |} ] in
  evaluatePolicy policies (lit "nixclaw_anything") (lit "telegram")
    (lit "unknown-user") = Deny
  /\ evaluatePolicy policies (lit "nixclaw_anything") (lit "telegram")
       (lit "owner") = Allow.
Proof. split; reflexivity. Qed.

End ToolPolicyProps.

Section ApprovalProps.
Import JS Approval.

Lemma read_index_ok (s : store) :
  index_is_array s -> read_index s = Done (pending_index s) s.
Proof.
  intros Harr. unfold read_index, bind, getJSON, pending_index.
  destruct (s !! PENDING_INDEX) as [[r|ids]|] eqn:E; try reflexivity.
  by destruct (Harr r).
Qed.

Lemma length_slice0_8 (uuid : jsstring) : (length (slice0 uuid 8) <= 8)%nat.
Proof. pose proof (length_slice0 uuid 8). lia. Qed.

Lemma fresh_id_not_index (uuid : jsstring) : slice0 uuid 8 <> PENDING_INDEX.
Proof.
  intros E. pose proof (length_slice0_8 uuid) as H. rewrite E in H.
  vm_compute in H. lia.
Qed.

Lemma pending_index_insert (s : store) (ids : list jsstring) :
  pending_index (<[PENDING_INDEX := Array_ ids]> s) = ids.
Proof. unfold pending_index. by rewrite lookup_insert_eq. Qed.

Lemma pending_index_insert_ne (s : store) (k : jsstring) (v : json) :
  k <> PENDING_INDEX -> pending_index (<[k := v]> s) = pending_index s.
Proof. intros Hk. unfold pending_index. by rewrite lookup_insert_ne. Qed.

Lemma index_is_array_insert_ne (s : store) (k : jsstring) (v : json) :
  k <> PENDING_INDEX -> index_is_array s -> index_is_array (<[k := v]> s).
Proof. intros Hk H r. rewrite lookup_insert_ne by done. apply H. Qed.

Lemma index_is_array_insert (s : store) (ids : list jsstring) :
  index_is_array (<[PENDING_INDEX := Array_ ids]> s).
Proof. intros r. by rewrite lookup_insert_eq. Qed.

Lemma record_not_index (s : store) (k : jsstring) (r : ApprovalRequest) :
  index_is_array s -> s !! k = Some (Record_ r) -> k <> PENDING_INDEX.
Proof. intros Harr Hk ->. by destruct (Harr r). Qed.

(** What [requestApproval] does to a store whose index key is well typed. *)
Lemma requestApproval_run (uuid : jsstring) (now : Z) (req : NewRequest) (s : store) :
  index_is_array s ->
  let id := slice0 uuid 8 in
  let approval :=
    {| id := id; tool := new_tool req; input := new_input req;
       session := new_session req; requester := new_requester req;
       status := pending; createdAt := now |} in
  requestApproval uuid now req s
  = Done id (<[PENDING_INDEX := Array_ (pending_index s ++ [id])]>
               (<[id := Record_ approval]> s)).
Proof.
  intros Harr id0 approval. unfold requestApproval.
  unfold bind at 1. unfold setJSON at 1. unfold bind at 1.
  rewrite read_index_ok
    by (apply index_is_array_insert_ne; [apply fresh_id_not_index|done]).
  rewrite pending_index_insert_ne by apply fresh_id_not_index.
  reflexivity.
Qed.

(** What [decide] does to a pending record. *)
Lemma decide_run_pending (id0 : jsstring) (d : decision) (s : store)
    (r : ApprovalRequest) :
  index_is_array s ->
  s !! id0 = Some (Record_ r) -> status r = pending ->
  decide id0 d s
  = Done tt (<[PENDING_INDEX :=
                 Array_ (List.filter (fun i => negb (bool_decide (i = id0)))
                           (pending_index s))]>
               (<[id0 := Record_ (with_status r (status_of_decision d))]> s)).
Proof.
  intros Harr Hr Hp. pose proof (record_not_index _ _ _ Harr Hr) as Hne.
  unfold decide, get. unfold bind at 1. unfold getJSON. rewrite Hr.
  unfold is_pending. rewrite Hp.
  unfold bind at 1. unfold setJSON at 1. unfold removeFromPendingIndex.
  unfold bind at 1.
  rewrite read_index_ok by (by apply index_is_array_insert_ne).
  rewrite pending_index_insert_ne by done. reflexivity.
Qed.

(** [decide] on anything but a pending record changes nothing. *)
Lemma decide_run_other (id0 : jsstring) (d : decision) (s : store) :
  (forall r, s !! id0 = Some (Record_ r) -> status r <> pending) ->
  decide id0 d s = Done tt s.
Proof.
  intros Hno. unfold decide, get, bind, getJSON.
  destruct (s !! id0) as [[r|ids]|] eqn:E; try reflexivity.
  specialize (Hno r eq_refl). unfold is_pending.
  destruct (status r); done.
Qed.

Lemma due_insert_ne (now maxAgeMs : Z) (s : store) (i k : jsstring) (v : json) :
  i <> k -> due now maxAgeMs (<[i := v]> s) k = due now maxAgeMs s k.
Proof. intros Hne. unfold due. by rewrite lookup_insert_ne. Qed.

Lemma due_insert_expired (now maxAgeMs : Z) (s : store) (i : jsstring)
    (r : ApprovalRequest) :
  due now maxAgeMs (<[i := Record_ (with_status r expired)]> s) i = false.
Proof. unfold due. by rewrite lookup_insert_eq. Qed.

Lemma due_record (now maxAgeMs : Z) (s : store) (k : jsstring) :
  due now maxAgeMs s k = true ->
  exists r, s !! k = Some (Record_ r) /\ status r = pending
            /\ now - createdAt r >= maxAgeMs.
Proof.
  unfold due. destruct (s !! k) as [[r|ids]|]; try done.
  intros [Hp Hold]%andb_true_iff. exists r. split; [done|].
  unfold is_pending in Hp. destruct (status r) eqn:E; try done.
  split; [done|]. apply Z.geb_le in Hold. lia.
Qed.

Lemma due_index (now maxAgeMs : Z) (s : store) :
  index_is_array s -> due now maxAgeMs s PENDING_INDEX = false.
Proof.
  intros Harr. unfold due.
  destruct (s !! PENDING_INDEX) as [[r|ids]|] eqn:E; try done.
  by destruct (Harr r).
Qed.

(** The loop of [expireOlderThan] completes; it collects the ids of the
    index that were due and leaves their records expired. *)
Lemma expire_loop_spec (now maxAgeMs : Z) (index : list jsstring) :
  forall (acc : list jsstring) (s : store),
  exists acc' s',
    expire_loop now maxAgeMs index acc s = Done acc' s'
    /\ (forall j, j ∈ acc' <-> j ∈ acc \/ (j ∈ index /\ due now maxAgeMs s j = true))
    /\ (forall k, s' !! k = expire_at now maxAgeMs index s k).
Proof.
  induction index as [|i rest IH]; intros acc s.
  - exists acc, s. split; [reflexivity|]. split.
    + intros j. split; [by left|]. intros [?|[H _]]; [done|]. inversion H.
    + intros k. unfold expire_at.
      rewrite bool_decide_eq_false_2 by (intros H; inversion H). done.
  - destruct (due now maxAgeMs s i) eqn:Hdue.
    + destruct (due_record _ _ _ _ Hdue) as (r & Hr & Hp & Hold).
      destruct (IH (acc ++ [i]) (<[i := Record_ (with_status r expired)]> s))
        as (acc' & s' & Hrun & Hacc & Hs').
      exists acc', s'. split; [|split].
      * cbn [expire_loop]. unfold get, bind at 1, getJSON. rewrite Hr.
        unfold due in Hdue. rewrite Hr in Hdue. rewrite Hdue.
        unfold bind at 1, setJSON at 1. exact Hrun.
      * intros j. rewrite Hacc, elem_of_app, list_elem_of_singleton, elem_of_cons.
        destruct (base.decide (j = i)) as [->|Hne].
        -- rewrite due_insert_expired. tauto.
        -- rewrite due_insert_ne by done. tauto.
      * intros k. rewrite Hs'. unfold expire_at.
        destruct (base.decide (k = i)) as [->|Hne].
        -- rewrite due_insert_expired, andb_false_r, lookup_insert_eq.
           rewrite (bool_decide_eq_true_2 (i ∈ i :: rest)) by left.
           rewrite Hdue, Hr. done.
        -- rewrite due_insert_ne, lookup_insert_ne by done.
           rewrite (bool_decide_ext (k ∈ rest) (k ∈ i :: rest)); [done|].
           rewrite elem_of_cons. tauto.
    + destruct (IH acc s) as (acc' & s' & Hrun & Hacc & Hs').
      exists acc', s'. split; [|split].
      * rewrite <- Hrun. cbn [expire_loop]. unfold get, bind at 1, getJSON.
        unfold due in Hdue.
        destruct (s !! i) as [[r|ids]|]; try reflexivity.
        rewrite Hdue. reflexivity.
      * intros j. rewrite Hacc, elem_of_cons.
        split; [tauto|]. intros [?|[[->|?] ?]]; [tauto|congruence|tauto].
      * intros k. rewrite Hs'. unfold expire_at.
        destruct (base.decide (k = i)) as [->|Hne].
        -- rewrite Hdue, !andb_false_r. done.
        -- rewrite (bool_decide_ext (k ∈ rest) (k ∈ i :: rest)); [done|].
           rewrite elem_of_cons. tauto.
Qed.

(** What [expireOlderThan] does to a store whose index key is well typed. *)
Lemma expireOlderThan_run (now maxAgeMs : Z) (s : store) :
  index_is_array s ->
  exists s',
    expireOlderThan now maxAgeMs s = Done tt s'
    /\ (forall k, k <> PENDING_INDEX ->
          s' !! k = expire_at now maxAgeMs (pending_index s) s k)
    /\ pending_index s'
       = List.filter (fun i => negb (due now maxAgeMs s i)) (pending_index s)
    /\ index_is_array s'.
Proof.
  intros Harr.
  destruct (expire_loop_spec now maxAgeMs (pending_index s) [] s)
    as (acc' & s' & Hrun & Hacc & Hs').
  assert (Hin : forall i, i ∈ pending_index s ->
            negb (bool_decide (i ∈ acc')) = negb (due now maxAgeMs s i)).
  { intros i Hi. f_equal.
    destruct (due now maxAgeMs s i) eqn:Hdue.
    - apply bool_decide_eq_true_2, Hacc. by right.
    - apply bool_decide_eq_false_2. rewrite Hacc.
      intros [H|[_ ?]]; [inversion H|congruence]. }
  assert (HPI : s' !! PENDING_INDEX = s !! PENDING_INDEX).
  { rewrite Hs'. unfold expire_at. by rewrite due_index, andb_false_r. }
  unfold expireOlderThan. unfold bind at 1. rewrite read_index_ok by done.
  unfold bind at 1. rewrite Hrun.
  destruct acc' as [|e acc'].
  - exists s'. split; [reflexivity|]. split; [by intros|]. split.
    + unfold pending_index at 1. rewrite HPI. fold (pending_index s).
      symmetry. apply forallb_filter_id, forallb_forall. intros i Hi.
      rewrite <- Hin by (by apply list_elem_of_In). done.
    + intros r. rewrite HPI. apply Harr.
  - eexists. split; [reflexivity|]. split; [|split].
    + intros k Hk. rewrite lookup_insert_ne by done. apply Hs'.
    + rewrite pending_index_insert. apply filter_ext_in.
      intros i Hi. apply Hin. by apply list_elem_of_In.
    + apply index_is_array_insert.
Qed.

Lemma record_status_index (s : store) :
  index_is_array s -> record_status s PENDING_INDEX = None.
Proof.
  intros Harr. unfold record_status.
  destruct (s !! PENDING_INDEX) as [[r|ids]|] eqn:E; try done.
  by destruct (Harr r).
Qed.

Lemma index_not_listed (s : store) :
  index_is_array s -> index_consistent s -> PENDING_INDEX ∉ pending_index s.
Proof.
  intros Harr Hcons Hin. apply Hcons in Hin.
  by rewrite record_status_index in Hin.
Qed.

Lemma elem_of_filter_bool (f : jsstring -> bool) (l : list jsstring) (x : jsstring) :
  x ∈ List.filter f l <-> x ∈ l /\ f x = true.
Proof. rewrite !list_elem_of_In. apply filter_In. Qed.

Lemma invariant_empty : invariant ∅.
Proof.
  split; [|split].
  - intros r. by rewrite lookup_empty.
  - intros k r. by rewrite lookup_empty.
  - intros j. unfold pending_index, record_status. rewrite !lookup_empty.
    split; [intros H; inversion H|done].
Qed.

Lemma invariant_requestApproval (uuid : jsstring) (now : Z) (req : NewRequest)
    (s : store) :
  invariant s -> invariant (store_of (requestApproval uuid now req s)).
Proof.
  intros (Harr & Hkey & Hcons).
  rewrite requestApproval_run by done. cbn [store_of].
  pose proof (fresh_id_not_index uuid) as Hfresh.
  pose proof (index_not_listed s Harr Hcons) as HPI.
  split; [apply index_is_array_insert|]. split.
  - intros k r.
    destruct (base.decide (k = PENDING_INDEX)) as [->|HkPI];
      [by rewrite lookup_insert_eq|].
    rewrite lookup_insert_ne by done.
    destruct (base.decide (k = slice0 uuid 8)) as [->|Hk].
    + rewrite lookup_insert_eq. by intros [= <-].
    + rewrite lookup_insert_ne by done. apply Hkey.
  - intros j. rewrite pending_index_insert, elem_of_app, list_elem_of_singleton.
    unfold record_status.
    destruct (base.decide (j = PENDING_INDEX)) as [->|HjPI].
    { rewrite lookup_insert_eq. split; [|done]. intros [?|?]; [done|].
      by destruct Hfresh. }
    rewrite lookup_insert_ne by done.
    destruct (base.decide (j = slice0 uuid 8)) as [->|Hj].
    + rewrite lookup_insert_eq. cbn. tauto.
    + rewrite lookup_insert_ne by done. fold (record_status s j).
      rewrite <- (Hcons j). tauto.
Qed.

Lemma invariant_decide (id0 : jsstring) (d : decision) (s : store) :
  invariant s -> invariant (store_of (decide id0 d s)).
Proof.
  intros (Harr & Hkey & Hcons).
  destruct (s !! id0) as [[r|ids]|] eqn:Hr;
    [destruct (status r) eqn:Hst|..];
    try (rewrite decide_run_other; [done|]; intros r' Hr'; congruence).
  rewrite (decide_run_pending id0 d s r) by done. cbn [store_of].
  pose proof (record_not_index _ _ _ Harr Hr) as Hne.
  pose proof (index_not_listed s Harr Hcons) as HPI.
  split; [apply index_is_array_insert|]. split.
  - intros k r'.
    destruct (base.decide (k = PENDING_INDEX)) as [->|HkPI];
      [by rewrite lookup_insert_eq|].
    rewrite lookup_insert_ne by done.
    destruct (base.decide (k = id0)) as [->|Hk].
    + rewrite lookup_insert_eq. intros [= <-]. cbn. by apply Hkey.
    + rewrite lookup_insert_ne by done. apply Hkey.
  - intros j. rewrite pending_index_insert, elem_of_filter_bool.
    rewrite negb_true_iff, bool_decide_eq_false. unfold record_status.
    destruct (base.decide (j = PENDING_INDEX)) as [->|HjPI].
    { rewrite lookup_insert_eq. split; [|done]. by intros [? _]. }
    rewrite lookup_insert_ne by done.
    destruct (base.decide (j = id0)) as [->|Hj].
    + rewrite lookup_insert_eq. cbn. split; [by intros [_ ?]|].
      by destruct d.
    + rewrite lookup_insert_ne by done. fold (record_status s j).
      rewrite <- (Hcons j). tauto.
Qed.

Lemma invariant_expireOlderThan (now maxAgeMs : Z) (s : store) :
  invariant s -> invariant (store_of (expireOlderThan now maxAgeMs s)).
Proof.
  intros (Harr & Hkey & Hcons).
  destruct (expireOlderThan_run now maxAgeMs s Harr)
    as (s' & -> & Hs' & Hidx & Harr').
  cbn [store_of].
  pose proof (index_not_listed s Harr Hcons) as HPI.
  split; [done|]. split.
  - intros k r Hk.
    assert (k <> PENDING_INDEX) as HkPI
      by exact (record_not_index _ _ _ Harr' Hk).
    rewrite Hs' in Hk by done. unfold expire_at in Hk.
    destruct (bool_decide (k ∈ pending_index s) && due now maxAgeMs s k);
      [|by apply Hkey].
    destruct (s !! k) as [[r0|ids]|] eqn:E; try done.
    injection Hk as <-. cbn. by apply Hkey.
  - intros j. rewrite Hidx, elem_of_filter_bool, negb_true_iff.
    destruct (base.decide (j = PENDING_INDEX)) as [->|HjPI].
    { rewrite record_status_index by done. split; [|done]. by intros [? _]. }
    unfold record_status. rewrite Hs' by done. unfold expire_at.
    destruct (bool_decide_reflect (j ∈ pending_index s)) as [Hin|Hout];
      cbn [andb].
    + destruct (due now maxAgeMs s j) eqn:Hdue.
      * destruct (due_record _ _ _ _ Hdue) as (r & -> & _).
        cbn. split; [by intros [_ ?]|done].
      * fold (record_status s j). rewrite <- (Hcons j). tauto.
    + fold (record_status s j). rewrite <- (Hcons j). tauto.
Qed.

Lemma invariant_step (s : store) (o : op) : invariant s -> invariant (step s o).
Proof.
  destruct o; cbn [step].
  - apply invariant_requestApproval.
  - apply invariant_decide.
  - apply invariant_expireOlderThan.
Qed.

Lemma invariant_run_ops (ops : list op) : invariant (run_ops ops).
Proof.
  unfold run_ops. generalize invariant_empty. generalize (∅ : store).
  induction ops as [|o ops IH]; intros s Hs; cbn [fold_left]; [done|].
  by apply IH, invariant_step.
Qed.

Lemma mapM_get (l : list jsstring) (s : store) :
  mapM get l s = Done ((fun i => s !! i) <$> l) s.
Proof.
  induction l as [|i l IH]; [reflexivity|].
  cbn [mapM]. unfold bind at 1, get at 1, getJSON. unfold bind at 1.
  rewrite IH. reflexivity.
Qed.

(** [listPending] reads the index and keeps the pending records it finds. *)
Lemma listPending_run (s : store) :
  index_is_array s ->
  listPending s
  = Done (omap pending_record ((fun i => s !! i) <$> pending_index s)) s.
Proof.
  intros Harr. unfold listPending. unfold bind at 1.
  rewrite read_index_ok by done. unfold bind at 1. rewrite mapM_get.
  reflexivity.
Qed.

Lemma pending_record_Some (v : option json) (r : ApprovalRequest) :
  pending_record v = Some r <-> v = Some (Record_ r) /\ status r = pending.
Proof.
  unfold pending_record, is_pending.
  destruct v as [[r0|ids]|]; [|split; [done|by intros [? _]]..].
  destruct (status r0) eqn:E; split; try done;
    try (intros [[= ->] ?]; congruence).
  intros [= ->]. done.
Qed.

Lemma elem_of_listPending (s : store) (r : ApprovalRequest) :
  r ∈ omap pending_record ((fun i => s !! i) <$> pending_index s) <->
  exists i, i ∈ pending_index s /\ s !! i = Some (Record_ r) /\ status r = pending.
Proof.
  rewrite list_elem_of_omap. split.
  - intros (v & Hv & Hr). apply list_elem_of_fmap in Hv as (i & -> & Hi).
    apply pending_record_Some in Hr. eauto.
  - intros (i & Hi & Hr & Hp). exists (s !! i). split.
    + apply list_elem_of_fmap. eauto.
    + by apply pending_record_Some.
Qed.

(** Under the invariant the pending index lists the ids of the records
    that [listPending] returns, in the same order. *)
Lemma listed_ids (s : store) (index : list jsstring) :
  keyed s ->
  (forall i, i ∈ index -> record_status s i = Some pending) ->
  id <$> omap pending_record ((fun i => s !! i) <$> index) = index.
Proof.
  intros Hkey. induction index as [|i index IH]; intros Hall; [reflexivity|].
  cbn [fmap list_fmap omap list_omap].
  assert (record_status s i = Some pending) as Hi by (apply Hall; left).
  unfold record_status in Hi.
  destruct (s !! i) as [[r|ids]|] eqn:E; try done.
  injection Hi as Hi. unfold pending_record, is_pending. rewrite Hi.
  cbn [fmap list_fmap]. f_equal; [by apply Hkey|].
  apply IH. intros j Hj. apply Hall. by right.
Qed.

(** C5. After any finite sequence of [requestApproval], [decide] and
    [expireOlderThan] calls on an empty store, an id is in the pending index
    exactly when its record is pending; [listPending] then returns exactly
    the pending records, and once one of two pending requests is decided it
    returns the other one alone. On any store [listPending] drops the
    index entries whose record is missing or not pending. *)
Theorem pending_index_invariant :
  forall ops : list op,
    let s := run_ops ops in
    (forall id0, id0 ∈ pending_index s <-> record_status s id0 = Some pending)
    /\ (exists l, listPending s = Done l s
          /\ forall r, r ∈ l <->
                exists k, s !! k = Some (Record_ r) /\ status r = pending)
    /\ (forall r1 r2 d,
          listPending s = Done [r1; r2] s -> id r1 <> id r2 ->
          exists s1 s2,
            decide (id r1) d s = Done tt s1 /\ listPending s1 = Done [r2] s1
            /\ decide (id r2) d s = Done tt s2 /\ listPending s2 = Done [r1] s2)
    /\ (forall s0 : store,
          index_is_array s0 ->
          exists l, listPending s0 = Done l s0
            /\ forall r, r ∈ l <->
                  exists i, i ∈ pending_index s0
                            /\ s0 !! i = Some (Record_ r) /\ status r = pending).
Proof.
  intros ops s. destruct (invariant_run_ops ops) as (Harr & Hkey & Hcons).
  fold s in Harr, Hkey, Hcons.
  split; [exact Hcons|]. split; [|split].
  - eexists. split; [by apply listPending_run|].
    intros r. rewrite elem_of_listPending. split.
    + intros (i & _ & Hr & Hp). eauto.
    + intros (k & Hr & Hp). exists k. split; [|done].
      apply Hcons. unfold record_status. rewrite Hr. by f_equal.
  - intros r1 r2 d Hlist Hne.
    rewrite listPending_run in Hlist by done. injection Hlist as Hlist.
    pose proof (listed_ids s (pending_index s) Hkey
                  (fun i Hi => proj1 (Hcons i) Hi)) as Hids.
    rewrite Hlist in Hids. cbn in Hids.
    assert (forall r, r ∈ [r1; r2] ->
              s !! id r = Some (Record_ r) /\ status r = pending) as Hrec.
    { intros r Hr. rewrite <- Hlist in Hr.
      apply elem_of_listPending in Hr as (i & _ & Hr & Hp).
      by rewrite (Hkey _ _ Hr). }
    destruct (Hrec r1) as [Hr1 Hp1]; [left|].
    destruct (Hrec r2) as [Hr2 Hp2]; [right; left|].
    pose proof (record_not_index _ _ _ Harr Hr1) as Hn1.
    pose proof (record_not_index _ _ _ Harr Hr2) as Hn2.
    do 2 eexists.
    split; [by apply decide_run_pending|]. split.
    { rewrite listPending_run by apply index_is_array_insert.
      rewrite pending_index_insert, <- Hids. cbn [List.filter].
      rewrite (bool_decide_eq_true_2 (id r1 = id r1)) by done.
      rewrite (bool_decide_eq_false_2 (id r2 = id r1)) by done.
      cbn [negb fmap list_fmap].
      rewrite !lookup_insert_ne, Hr2 by done.
      cbn [omap list_omap pending_record is_pending]. by rewrite Hp2. }
    split; [by apply decide_run_pending|].
    rewrite listPending_run by apply index_is_array_insert.
    rewrite pending_index_insert, <- Hids. cbn [List.filter].
    rewrite (bool_decide_eq_true_2 (id r2 = id r2)) by done.
    rewrite (bool_decide_eq_false_2 (id r1 = id r2)) by done.
    cbn [negb fmap list_fmap].
    rewrite !lookup_insert_ne, Hr1 by done.
    cbn [omap list_omap pending_record is_pending]. by rewrite Hp1.
  - intros s0 Harr0. eexists. split; [by apply listPending_run|].
    intros r. apply elem_of_listPending.
Qed.

(** C6. [decide(id, d)] leaves the whole store as it is when no record is
    stored under [id] or the record is not pending; on a pending record it
    sets the status to [d], removes [id] from the pending index, and leaves
    every other record as it is. *)
Theorem decide_spec :
  forall (id0 : jsstring) (d : decision) (s : store),
    (record_status s id0 <> Some pending -> decide id0 d s = Done tt s)
    /\ (forall r,
          index_is_array s ->
          s !! id0 = Some (Record_ r) -> status r = pending ->
          exists s',
            decide id0 d s = Done tt s'
            /\ s' !! id0 = Some (Record_ (with_status r (status_of_decision d)))
            /\ record_status s' id0 = Some (status_of_decision d)
            /\ pending_index s'
               = List.filter (fun i => negb (bool_decide (i = id0))) (pending_index s)
            /\ (id0 ∉ pending_index s')
            /\ forall k, k <> id0 -> k <> PENDING_INDEX -> s' !! k = s !! k).
Proof.
  intros id0 d s. split.
  - intros Hno. apply decide_run_other. intros r Hr Hp. apply Hno.
    unfold record_status. rewrite Hr. by f_equal.
  - intros r Harr Hr Hp.
    pose proof (record_not_index _ _ _ Harr Hr) as Hne.
    eexists. split; [by apply decide_run_pending|].
    assert (forall v ix, (<[PENDING_INDEX := ix]> (<[id0 := v]> s)) !! id0 = Some v)
      as Hlook by (intros; by rewrite lookup_insert_ne, lookup_insert_eq).
    split; [apply Hlook|]. split; [unfold record_status; by rewrite Hlook|].
    split; [apply pending_index_insert|]. split.
    + rewrite pending_index_insert, elem_of_filter_bool.
      intros [_ H]. by rewrite bool_decide_eq_true_2 in H.
    + intros k Hk HkPI. by rewrite !lookup_insert_ne.
Qed.
(** C7, the id is not fresh: two different UUIDs that share their first
    eight characters give the same id, and the second request replaces the
    record of the first. *)
Lemma requestApproval_reuses_id :
  let uuid1 := lit "3f2a9c1e-58d1-4c7a-9b0e-6d2f4a8c1b35" in
  let uuid2 := lit "3f2a9c1e-0b7c-4e19-8a44-91c3f7d05e62" in
  let first := {| new_tool := lit "Bash"; new_input := lit "git push origin main";
                  new_session := lit "s1"; new_requester := lit "claude-code" |} in
  let second := {| new_tool := lit "Write"; new_input := lit "/etc/hosts";
                   new_session := lit "s2"; new_requester := lit "claude-code" |} in
  exists id1 id2 s1 s2 r,
    uuid1 <> uuid2
    /\ requestApproval uuid1 1000 first ∅ = Done id1 s1
    /\ requestApproval uuid2 2000 second s1 = Done id2 s2
    /\ id2 = id1
    /\ s2 !! id1 = Some (Record_ r) /\ tool r = lit "Write".
Proof.
  cbn zeta. do 5 eexists.
  split; [by vm_compute|].
  split; [vm_compute; reflexivity|].
  split; [vm_compute; reflexivity|].
  split; [reflexivity|].
  split; [vm_compute; reflexivity|reflexivity].
Qed.

(** C7, as the code has it. [requestApproval] returns the first eight
    characters of the UUID it draws, so two calls return the same id
    exactly when their UUIDs share that prefix; on return a record with
    that id is stored with status pending and the current time as its
    creation time, the id has been appended to the pending index, and no
    other record has changed. *)
Theorem requestApproval_spec :
  forall (uuid : jsstring) (now : Z) (req : NewRequest) (s : store),
    index_is_array s ->
    let id0 := slice0 uuid 8 in
    exists s',
      requestApproval uuid now req s = Done id0 s'
      /\ s' !! id0
         = Some (Record_ {| id := id0; tool := new_tool req; input := new_input req;
                            session := new_session req;
                            requester := new_requester req;
                            status := pending; createdAt := now |})
      /\ record_status s' id0 = Some pending
      /\ pending_index s' = pending_index s ++ [id0]
      /\ (forall k, k <> id0 -> k <> PENDING_INDEX -> s' !! k = s !! k)
      /\ (forall uuid' now' req' s0 id' s0',
            requestApproval uuid' now' req' s0 = Done id' s0' ->
            id' = id0 <-> slice0 uuid' 8 = slice0 uuid 8).
Proof.
  intros uuid now req s Harr id0.
  pose proof (fresh_id_not_index uuid) as Hfresh.
  eexists. split; [by apply requestApproval_run|].
  assert (forall v ix, (<[PENDING_INDEX := ix]> (<[id0 := v]> s)) !! id0 = Some v)
    as Hlook by (intros; by rewrite lookup_insert_ne, lookup_insert_eq).
  split; [apply Hlook|]. split; [unfold record_status; by rewrite Hlook|].
  split; [apply pending_index_insert|]. split.
  - intros k Hk HkPI. by rewrite !lookup_insert_ne.
  - intros uuid' now' req' s0 id' s0' Hrun.
    assert (id' = slice0 uuid' 8) as ->; [|done].
    cbv [requestApproval bind setJSON read_index getJSON ret raise] in Hrun.
    destruct (_ !! PENDING_INDEX) as [[?|?]|] in Hrun; congruence.
Qed.


Lemma requestApproval_spec_witness :
  exists s',
    requestApproval (lit "3f2a9c1e-58d1-4c7a-9b0e-6d2f4a8c1b35") 1000
      {| new_tool := lit "Bash"; new_input := lit "git push origin main";
         new_session := lit "s1"; new_requester := lit "claude-code" |} ∅
    = Done (lit "3f2a9c1e") s'
    /\ record_status s' (lit "3f2a9c1e") = Some pending
    /\ pending_index s' = [lit "3f2a9c1e"].
Proof.
  destruct (requestApproval_spec (lit "3f2a9c1e-58d1-4c7a-9b0e-6d2f4a8c1b35") 1000
              {| new_tool := lit "Bash"; new_input := lit "git push origin main";
                 new_session := lit "s1"; new_requester := lit "claude-code" |} ∅)
    as (s' & Hrun & _ & Hstatus & Hindex & _).
  - intros r. rewrite lookup_empty. discriminate.
  - exists s'. split; [exact Hrun|]. split; [exact Hstatus|]. exact Hindex.
Defined.


(** The end-to-end scenario of the specification: a request for
    [git push origin main] is pending until it is denied. *)
Example deny_scenario :
  let req := {| new_tool := lit "Bash"; new_input := lit "git push origin main";
                new_session := lit "claude-session-1";
                new_requester := lit "claude-code" |} in
  let uuid := lit "3f2a9c1e-58d1-4c7a-9b0e-6d2f4a8c1b35" in
  let s1 := run_ops [RequestApproval uuid 1000 req] in
  let s2 := step s1 (Decide (lit "3f2a9c1e") decide_deny) in
  record_status s1 (lit "3f2a9c1e") = Some pending
  /\ record_status s2 (lit "3f2a9c1e") = Some deny
  /\ pending_index s1 = [lit "3f2a9c1e"]
  /\ pending_index s2 = [].
Proof. vm_compute. repeat split. Qed.

End ApprovalProps.

Section RoutesProps.
Import JS Routes.

Lemma split_slash_head (rest : jsstring) :
  forall cur, exists x tl, split_slash rest cur = (cur ++ x) :: tl.
Proof.
  induction rest as [|c rest IH]; intros cur; cbn [split_slash].
  - exists [], []. by rewrite app_nil_r.
  - destruct (c =? 47)%N.
    + exists [], (split_slash rest []). by rewrite app_nil_r.
    + destruct (IH (cur ++ [c])) as (x & tl & ->).
      exists (c :: x), tl. by rewrite <- app_assoc.
Qed.

(** No route of the application serves a path under [/api/approve]. *)
Lemma approve_paths_unrouted (m : method) (rest : jsstring) :
  find_route webui_app m (lit "/api/approve" ++ rest) = None.
Proof.
  assert (exists x tl,
            split_slash (lit "/api/approve" ++ rest) []
            = [] :: lit "api" :: (lit "approve" ++ x) :: tl) as (x & tl & Hsplit).
  { destruct (split_slash_head rest (lit "approve")) as (x & tl & E).
    exists x, tl. rewrite <- E. reflexivity. }
  unfold find_route, webui_app, registerRoutes. cbn [app List.find].
  unfold route_matches. rewrite Hsplit.
  cbn [route_url route_method].
  destruct m; vm_compute; reflexivity.
Qed.

(** C9. The application registers [/api/health], [/api/chat],
    [/api/stream] and [/], and nothing else: a request to any of the three
    approval endpoints finds no handler, for every id. *)
Theorem approval_endpoints_unrouted :
  forall id0 : jsstring,
    List.map (fun r => (route_method r, route_url r)) webui_app
    = [ (GET, lit "/api/health"); (POST, lit "/api/chat");
        (GET, lit "/api/stream"); (GET, lit "/") ]
    /\ find_route webui_app POST (lit "/api/approve") = None
    /\ find_route webui_app GET (lit "/api/approve/" ++ id0) = None
    /\ find_route webui_app POST (lit "/api/approve/" ++ id0 ++ lit "/decide") = None.
Proof.
  intros id0. split; [reflexivity|]. split; [|split].
  - apply (approve_paths_unrouted POST []).
  - apply (approve_paths_unrouted GET (lit "/" ++ id0)).
  - apply (approve_paths_unrouted POST (lit "/" ++ id0 ++ lit "/decide")).
Qed.

(** The routes that are registered are served. *)
Example registered_routes_served :
  find_route webui_app GET (lit "/api/health") = Some health
  /\ find_route webui_app POST (lit "/api/chat") = Some chat
  /\ find_route webui_app GET (lit "/api/stream") = Some stream
  /\ find_route webui_app GET (lit "/") = Some dashboard
  /\ find_route webui_app GET (lit "/api/chat") = None.
Proof. repeat split. Qed.

End RoutesProps.

Section SandboxExtras.
Import JS Regex SafeExec Commands.

Lemma search_Class (p : N -> bool) (s : jsstring) :
  forall prev, search (Class p) prev s = true <-> exists c, c ∈ s /\ p c = true.
Proof.
  induction s as [|x s IH]; intros prev; cbn [search match_k].
  - split; [done|]. intros (c & Hc & _). inversion Hc.
  - rewrite andb_true_r, orb_true_iff, IH. split.
    + intros [Hx|(c & Hc & Hp)]; [exists x|exists c]; split; try done.
      * left.
      * by right.
    + intros (c & Hc & Hp). apply elem_of_cons in Hc as [->|Hc]; eauto.
Qed.

Lemma elem_of_join (sep : jsstring) (l : list jsstring) (a : jsstring) (c : N) :
  a ∈ l -> c ∈ a -> c ∈ join sep l.
Proof.
  induction l as [|x l IH]; intros Ha Hc; [inversion Ha|].
  cbn [join]. destruct l as [|y l].
  - apply list_elem_of_singleton in Ha as ->. done.
  - rewrite !elem_of_app. apply elem_of_cons in Ha as [->|Ha]; [by left|].
    right. right. by apply IH.
Qed.

(** X1. Whatever the operating system answers, [safeExec] resolves; it
    spawns at most one process, and when it spawns one it is the given
    command with the given argument vector, the command is on the
    allowlist, no blocked pattern matches the joined arguments, and no
    argument contains [;], [&], [|] or a backquote. *)
Theorem safeExec_spawns_only_checked :
  forall (command : jsstring) (args : list jsstring) (options : SafeExecOptions)
         (os : SpawnRequest -> settled ExecResult),
    (exists text, snd (run os (safeExec command args options)) = Resolved text)
    /\ (forall rq,
         rq ∈ fst (run os (safeExec command args options)) ->
         fst (run os (safeExec command args options)) = [rq]
         /\ sp_file rq = command /\ sp_args rq = args
         /\ command ∈ ALLOWED_COMMANDS
         /\ (forall pattern, pattern ∈ BLOCKED_PATTERNS ->
              test pattern (join (lit " ") args) = false)
         /\ (forall a c, a ∈ args -> c ∈ a -> c ∉ lit ";&|`")).
Proof.
  intros command args options os. unfold safeExec.
  destruct (isCommandAllowed command args) eqn:Hok; cbn [negb run].
  - apply isCommandAllowed_true in Hok as [Hin Hpat].
    destruct (os _) as [res|e]; cbn [run fst snd]; (split; [eauto|]);
      intros rq ->%list_elem_of_singleton; repeat split; try done;
      intros a c Ha Hc Hmeta;
      (assert (test (Class (one_of ";&|`")) (join (lit " ") args) = true) as Ht;
       [apply search_Class; exists c; split;
        [by eapply elem_of_join|
         unfold one_of; apply existsb_exists; exists c;
         split; [by apply list_elem_of_In|apply N.eqb_refl]]
       |rewrite Hpat in Ht; [done|left]]).
  - cbn [fst snd]. split; [eauto|]. intros rq Hrq. inversion Hrq.
Qed.

Lemma join_cons (sep x : jsstring) (l : list jsstring) :
  l <> [] -> join sep (x :: l) = x ++ sep ++ join sep l.
Proof. by destruct l. Qed.

Lemma join_app (sep : jsstring) (l1 l2 : list jsstring) :
  l1 <> [] -> l2 <> [] ->
  join sep (l1 ++ l2) = join sep l1 ++ sep ++ join sep l2.
Proof.
  intros H1 H2. induction l1 as [|x l1 IH]; [done|].
  destruct l1 as [|y l1].
  - cbn [app]. by rewrite join_cons.
  - change ((x :: y :: l1) ++ l2) with (x :: (y :: l1) ++ l2).
    rewrite join_cons by done. rewrite IH by done.
    rewrite (join_cons sep x (y :: l1)) by done.
    by rewrite <- !app_assoc.
Qed.

Lemma matches_suffix (r : regex) prev s prev' s' (t : jsstring) :
  matches r prev s prev' s' -> word_at (head t) = false ->
  matches r prev (s ++ t) prev' (s' ++ t).
Proof.
  intros Hm Ht. induction Hm; cbn [app]; try (by econstructor).
  constructor. destruct s as [|c s]; cbn [app]; [|done].
  cbn [head] in *. by rewrite Ht.
Qed.

Lemma matches_prev (r : regex) prev s prev' s' :
  matches r prev s prev' s' ->
  forall q, word_at q = word_at prev ->
  exists q', matches r q s q' s' /\ word_at q' = word_at prev'.
Proof.
  intros Hm. induction Hm; intros q Hq.
  - exists q. split; [constructor|done].
  - eexists. split; [constructor|done].
  - eexists. split; [by constructor|done].
  - exists q. split; [constructor|done].
  - exists prev'. split; [by econstructor|done].
  - exists q. split; [|done]. constructor. by rewrite Hq.
  - destruct (IHHm1 q Hq) as (q1 & H1 & Hq1).
    destruct (IHHm2 q1 Hq1) as (q2 & H2 & Hq2).
    exists q2. split; [by econstructor|done].
  - destruct (IHHm q Hq) as (q' & H & Hq'). exists q'.
    split; [by apply matches_Alt_l|done].
  - destruct (IHHm q Hq) as (q' & H & Hq'). exists q'.
    split; [by apply matches_Alt_r|done].
Qed.

(** A match survives when the subject is put between other text, as long
    as that text is set off by a space. *)
Lemma test_context (r : regex) (s A B : jsstring) :
  test r s = true ->
  (A = [] \/ last A = Some 32%N) -> (B = [] \/ head B = Some 32%N) ->
  test r (A ++ s ++ B) = true.
Proof.
  intros (before & rest & prev' & s' & -> & Hm)%test_correct HA HB.
  apply test_correct.
  assert (word_at (head B) = false) as HwB by (by destruct HB as [->| ->]).
  assert (word_at (last (A ++ before)) = word_at (last before)) as HwA.
  { destruct before as [|b before].
    - rewrite app_nil_r. by destruct HA as [->| ->].
    - by rewrite last_app_cons. }
  apply (matches_suffix _ _ _ _ _ B) in Hm; [|done].
  destruct (matches_prev _ _ _ _ _ Hm (last (A ++ before)) HwA) as (q' & Hq & _).
  exists (A ++ before), (rest ++ B), q', (s' ++ B).
  split; [by rewrite <- !app_assoc|done].
Qed.

Lemma scan_patterns_false (patterns : list regex) (fullArgs : jsstring) :
  scan_patterns patterns fullArgs = false <->
  exists pattern, pattern ∈ patterns /\ test pattern fullArgs = true.
Proof.
  induction patterns as [|p ps IH]; cbn [scan_patterns].
  - split; [done|]. intros (q & Hq & _). inversion Hq.
  - destruct (test p fullArgs) eqn:Hp.
    + split; [|done]. intros _. exists p. split; [left|done].
    + rewrite IH. split.
      * intros (q & Hq & Ht). exists q. split; [by right|done].
      * intros (q & Hq & Ht). apply elem_of_cons in Hq as [->|Hq]; [congruence|].
        eauto.
Qed.

(** X2. Arguments that the check refuses stay refused inside any longer
    argument list: nothing put before or after them makes the command
    acceptable. *)
Theorem isCommandAllowed_blocked_in_context :
  forall (command : jsstring) (args before after : list jsstring),
    isCommandAllowed command args = false ->
    isCommandAllowed command (before ++ args ++ after) = false.
Proof.
  intros command args before after. unfold isCommandAllowed.
  destruct (allowed_has command); cbn [negb]; [|done].
  destruct args as [|a args]; [done|].
  intros (pattern & Hp & Ht)%scan_patterns_false.
  apply scan_patterns_false. exists pattern. split; [done|].
  assert (exists A B,
            join (lit " ") (before ++ (a :: args) ++ after)
            = A ++ join (lit " ") (a :: args) ++ B
            /\ (A = [] \/ last A = Some 32%N) /\ (B = [] \/ head B = Some 32%N))
    as (A & B & -> & HA & HB); [|by apply test_context].
  destruct before as [|b before], after as [|c after].
  - exists [], []. rewrite !app_nil_r. auto.
  - exists [], (lit " " ++ join (lit " ") (c :: after)).
    cbn [app]. change (a :: args ++ c :: after) with ((a :: args) ++ c :: after).
    rewrite join_app by done. auto.
  - exists (join (lit " ") (b :: before) ++ lit " "), [].
    rewrite !app_nil_r. rewrite join_app by done.
    rewrite <- !app_assoc. split; [done|]. split; [right|by left].
    apply last_snoc.
  - exists (join (lit " ") (b :: before) ++ lit " "),
      (lit " " ++ join (lit " ") (c :: after)).
    rewrite join_app by (by destruct args).
    rewrite (join_app _ (a :: args)) by done.
    rewrite <- !app_assoc. split; [done|]. split; [right|by right].
    apply last_snoc.
Qed.

Lemma isCommandAllowed_blocked_in_context_witness :
  isCommandAllowed (lit "git") [lit "push"] = false
  /\ isCommandAllowed (lit "git")
       ([lit "-c"; lit "x=y"] ++ [lit "push"] ++ [lit "origin"; lit "main"]) = false.
Proof.
  split; [reflexivity|].
  apply (isCommandAllowed_blocked_in_context (lit "git") [lit "push"]
           [lit "-c"; lit "x=y"] [lit "origin"; lit "main"]).
  reflexivity.
Defined.

(** X3. For a command that passes the check, run without [timeout] and
    [cwd] options, [safeExec] issues the same spawn request as [runCommand]
    and returns the same text whenever the process fails or its output is
    within [maxBytes]; a longer output (with [maxBytes] not negative) comes
    back as exactly its first [maxBytes] code units followed by the
    truncation notice. *)
Theorem safeExec_refines_runCommand :
  forall (command : jsstring) (args : list jsstring) (limit : option Z)
         (os : SpawnRequest -> settled ExecResult),
    isCommandAllowed command args = true ->
    let options := {| maxBytes := limit; timeout := None; cwd := None |} in
    let bound := default 10240 limit in
    exists rq plain,
      run os (runCommand command args) = ([rq], Resolved plain)
      /\ fst (run os (safeExec command args options)) = [rq]
      /\ ((exists e, os rq = Rejected e) \/ Z.of_nat (length plain) <= bound ->
          snd (run os (safeExec command args options)) = Resolved plain)
      /\ ((exists res, os rq = Resolved res) ->
          0 <= bound < Z.of_nat (length plain) ->
          snd (run os (safeExec command args options))
          = Resolved (take (Z.to_nat bound) plain ++ truncation_notice bound)).
Proof.
  intros command args limit os Hok options bound.
  unfold safeExec, runCommand. rewrite Hok. cbn [negb run].
  cbn [maxBytes timeout cwd options default option_rect from_option].
  fold bound.
  set (rq := {| sp_file := command; sp_args := args;
                sp_timeout := 30000; sp_cwd := None |}).
  destruct (os rq) as [res|e] eqn:Hos; cbn [run fst snd].
  - set (plain := stdout res ++ _).
    exists rq, plain. split; [done|]. split; [done|]. split.
    + intros [[e He]|Hle]; [congruence|].
      destruct (Z.gtb_spec (Z.of_nat (length plain)) bound); [lia|done].
    + intros _ [H0 Hlt].
      destruct (Z.gtb_spec (Z.of_nat (length plain)) bound); [|lia].
      unfold slice0. destruct (Z.ltb_spec bound 0); [lia|].
      by rewrite Z.min_l by lia.
  - eexists rq, _. split; [done|]. split; [done|]. split; [done|].
    intros [res Hres]. congruence.
Qed.

Lemma safeExec_refines_runCommand_witness :
  exists rq plain,
    run (fun _ => Resolved {| stdout := lit "nixos"; stderr := [] |})
      (runCommand (lit "hostname") []) = ([rq], Resolved plain)
    /\ snd (run (fun _ => Resolved {| stdout := lit "nixos"; stderr := [] |})
             (safeExec (lit "hostname") []
                {| maxBytes := Some 3; timeout := None; cwd := None |}))
       = Resolved (take 3 plain ++ truncation_notice 3).
Proof.
  destruct (safeExec_refines_runCommand (lit "hostname") [] (Some 3)
              (fun _ => Resolved {| stdout := lit "nixos"; stderr := [] |}))
    as (rq & plain & Hrun & _ & _ & Hcut); [reflexivity|].
  exists rq, plain. split; [exact Hrun|].
  apply Hcut; [by eexists|].
  injection Hrun as _ <-. cbn. lia.
Defined.

(** X4. The NixOS tools do not go through the sandbox: [serviceStatus]
    spawns [systemctl status <name> --no-pager] for every service name,
    also for the names with which [isCommandAllowed] refuses that very
    command, and it resolves whatever the outcome. *)
Theorem serviceStatus_not_sandboxed :
  forall (serviceName : jsstring) (os : SpawnRequest -> settled ExecResult),
    let args := [lit "status"; serviceName; lit "--no-pager"] in
    fst (run os (serviceStatus serviceName))
    = [ {| sp_file := lit "systemctl"; sp_args := args;
           sp_timeout := 30000; sp_cwd := None |} ]
    /\ (exists text, snd (run os (serviceStatus serviceName)) = Resolved text)
    /\ ((exists c, c ∈ serviceName /\ c ∈ lit ";&|`") ->
        isCommandAllowed (lit "systemctl") args = false
        /\ fst (run os (safeExec (lit "systemctl") args no_options)) = []).
Proof.
  intros serviceName os args. unfold serviceStatus, runCommand. cbn [run].
  destruct (os _); cbn [run fst snd]; (split; [done|]); (split; [eauto|]);
    intros (c & Hc & Hmeta);
    (assert (isCommandAllowed (lit "systemctl") args = false) as Hno;
     [apply not_true_is_false; intros [_ Hpat]%isCommandAllowed_true;
      (assert (test (Class (one_of ";&|`")) (join (lit " ") args) = true) as Ht;
       [apply search_Class; exists c; split;
        [apply (elem_of_join _ _ serviceName); [|done]; right; left|
         unfold one_of; apply existsb_exists; exists c;
         split; [by apply list_elem_of_In|apply N.eqb_refl]]
       |rewrite Hpat in Ht; [done|left]])
     |split; [done|]; unfold safeExec; by rewrite Hno]).
Qed.

End SandboxExtras.

Section HostExtras.
Import JS ToolPolicy PluginHost.
Context {Schema Run : Type}.

Lemma rule_matches_decide (toolName channel sender : jsstring) (p : ToolPolicy) :
  rule_matches toolName channel sender p \/ ~ rule_matches toolName channel sender p.
Proof.
  unfold rule_matches.
  destruct (base.decide (tool p = lit "*")), (base.decide (tool p = toolName)),
    (set_and_excludes (channels p) channel) eqn:Hc,
    (set_and_excludes (users p) sender) eqn:Hu;
    try apply set_and_excludes_false in Hc; try apply set_and_excludes_false in Hu;
    try (left; tauto);
    right; intros (Ht & Hc' & Hu');
    try apply set_and_excludes_false in Hc';
    try apply set_and_excludes_false in Hu'; try congruence; tauto.
Qed.

(** Either some rule is the first to match and decides, or none matches. *)
Lemma evaluatePolicy_cases (ps : list ToolPolicy) (toolName channel sender : jsstring) :
  (exists before r after,
      ps = before ++ r :: after
      /\ Forall (fun p => ~ rule_matches toolName channel sender p) before
      /\ rule_matches toolName channel sender r
      /\ evaluatePolicy ps toolName channel sender = effect r)
  \/ (Forall (fun p => ~ rule_matches toolName channel sender p) ps
      /\ evaluatePolicy ps toolName channel sender = Allow).
Proof.
  induction ps as [|p ps IH]; [by right|].
  destruct (rule_matches_decide toolName channel sender p) as [Hm|Hno].
  - left. exists [], p, ps. split; [done|]. split; [constructor|].
    split; [done|]. by apply evaluatePolicy_match.
  - rewrite evaluatePolicy_skip by done.
    destruct IH as [(before & r & after & -> & Hb & Hr & He)|[Hall He]].
    + left. exists (p :: before), r, after.
      split; [done|]. split; [by constructor|]. by split.
    + right. split; [by constructor|done].
Qed.

Lemma first_match_unique (ps before before' after after' : list ToolPolicy)
    (r r' : ToolPolicy) (P : ToolPolicy -> Prop) :
  ps = before ++ r :: after -> ps = before' ++ r' :: after' ->
  Forall (fun p => ~ P p) before -> Forall (fun p => ~ P p) before' ->
  P r -> P r' -> before = before' /\ r = r' /\ after = after'.
Proof.
  intros -> E Hb. revert before' E.
  induction Hb as [|p before Hp _ IH]; intros before' E Hb' Hr Hr'.
  - destruct before' as [|q before']; cbn in E.
    + by injection E as -> ->.
    + injection E as -> _. by inversion Hb'.
  - destruct before' as [|q before']; cbn in E.
    + injection E as -> _. done.
    + injection E as -> E. inversion Hb'; subst.
      destruct (IH before' E) as (-> & -> & ->); done.
Qed.

(** X5. A tool is exposed to a channel and sender exactly when it is
    registered and the first policy rule that matches it, if any, does not
    deny it; tools flagged ["approve"] are exposed like allowed ones. The
    exposed tools keep their registration order, and a host whose policies
    were never set exposes every registered tool, repeated names included. *)
Theorem getToolsForContext_first_match :
  forall (h : PluginHost Schema Run) (channel sender : jsstring),
    (forall t,
        t ∈ getToolsForContext channel sender h <->
        t ∈ getTools h
        /\ ~ exists before r after,
               policies h = before ++ r :: after
               /\ Forall (fun p => ~ rule_matches (name t) channel sender p) before
               /\ rule_matches (name t) channel sender r
               /\ effect r = Deny)
    /\ sublist (getToolsForContext channel sender h) (getTools h)
    /\ (forall ts : list (Tool Schema Run),
          getToolsForContext channel sender (fold_left (fun h t => registerTool t h) ts new_host)
          = ts).
Proof.
  intros h channel sender. split; [|split].
  - intros t. unfold getToolsForContext, getTools.
    rewrite list_elem_of_In, filter_In, <- list_elem_of_In.
    apply and_iff_compat_l.
    destruct (evaluatePolicy_cases (policies h) (name t) channel sender)
      as [(before & r & after & E & Hb & Hr & He)|[Hall He]]; rewrite He.
    + split.
      * intros Hd (before' & r' & after' & E' & Hb' & Hr' & Hd').
        destruct (first_match_unique _ _ _ _ _ _ _ _ E E' Hb Hb' Hr Hr')
          as (_ & -> & _).
        rewrite Hd' in Hd. done.
      * intros Hno. destruct (effect r) eqn:Heff; try done.
        destruct Hno. by exists before, r, after.
    + split; [|done]. intros _ (before & r & after & E & _ & Hr & _).
      rewrite E in Hall. apply Forall_app in Hall as [_ Hall].
      by inversion Hall.
  - unfold getToolsForContext, getTools.
    induction (tools h) as [|t ts IH]; cbn [List.filter]; [constructor|].
    destruct (evaluatePolicy _ _ _ _); by constructor.
  - intros ts.
    assert (forall (h0 : PluginHost Schema Run),
              policies h0 = [] ->
              getToolsForContext channel sender
                (fold_left (fun h t => registerTool t h) ts h0)
              = tools h0 ++ ts) as Hgen.
    { induction ts as [|t ts IH]; intros h0 Hp; cbn [fold_left].
      - rewrite app_nil_r. unfold getToolsForContext. rewrite Hp.
        apply forallb_filter_id, forallb_forall. done.
      - rewrite IH by done. cbn [registerTool tools].
        by rewrite <- app_assoc. }
    by rewrite Hgen.
Qed.

(** X6. Appending the wildcard deny rule makes exposure fail closed: a
    tool is then exposed exactly when it is registered and some rule placed
    before the wildcard is the first to match it and does not deny it. *)
Theorem getToolsForContext_fail_closed :
  forall (h : PluginHost Schema Run) (rules : list ToolPolicy)
         (channel sender : jsstring) (t : Tool Schema Run),
    let deny_all :=
      {| tool := lit "*"; effect := Deny; channels := None; users := None |} in
    t ∈ getToolsForContext channel sender (setPolicies (rules ++ [deny_all]) h) <->
    t ∈ getTools h
    /\ exists before r after,
         rules = before ++ r :: after
         /\ Forall (fun p => ~ rule_matches (name t) channel sender p) before
         /\ rule_matches (name t) channel sender r
         /\ effect r <> Deny.
Proof.
  intros h rules channel sender t deny_all.
  unfold getToolsForContext, getTools, setPolicies. cbn [tools policies].
  rewrite list_elem_of_In, filter_In, <- list_elem_of_In.
  apply and_iff_compat_l.
  assert (rule_matches (name t) channel sender deny_all) as Hall.
  { split; [by left|]. split; by left. }
  destruct (evaluatePolicy_cases rules (name t) channel sender)
    as [(before & r & after & E & Hb & Hr & He)|[Hnone He]].
  - destruct (evaluatePolicy_first_match (rules ++ [deny_all]) (name t)
                channel sender) as [Hfirst _].
    rewrite (Hfirst before r (after ++ [deny_all]));
      [|by rewrite E, <- app_assoc|done|done].
    split.
    + intros Hd. exists before, r, after.
      split; [done|]. split; [done|]. split; [done|].
      intros Heff. by rewrite Heff in Hd.
    + intros (before' & r' & after' & E' & Hb' & Hr' & Hd').
      destruct (first_match_unique _ _ _ _ _ _ _ _ E E' Hb Hb' Hr Hr')
        as (_ & -> & _).
      by destruct (effect r').
  - destruct (evaluatePolicy_first_match (rules ++ [deny_all]) (name t)
                channel sender) as [Hfirst _].
    rewrite (Hfirst rules deny_all []); [|done..].
    split; [done|]. intros (before & r & after & E & _ & Hr & _).
    rewrite E in Hnone. apply Forall_app in Hnone as [_ Hnone].
    by inversion Hnone.
Qed.

(** X7. A rule whose [channels] or [users] array is empty never applies:
    the decision is the same as without the rule, wherever the rule
    stands, unlike a rule that leaves the field out. *)
Theorem evaluatePolicy_empty_array_rule :
  forall (before after : list ToolPolicy) (r : ToolPolicy)
         (toolName channel sender : jsstring),
    channels r = Some [] \/ users r = Some [] ->
    evaluatePolicy (before ++ r :: after) toolName channel sender
    = evaluatePolicy (before ++ after) toolName channel sender.
Proof.
  intros before after r toolName channel sender Hempty.
  induction before as [|p before IH]; cbn [app].
  - apply evaluatePolicy_skip. intros (_ & Hc & Hu).
    destruct Hempty as [E|E]; rewrite E in *.
    + destruct Hc as [?|(l & [= <-] & Hin)]; [done|]. inversion Hin.
    + destruct Hu as [?|(l & [= <-] & Hin)]; [done|]. inversion Hin.
  - cbn [evaluatePolicy]. by rewrite IH.
Qed.

Lemma evaluatePolicy_empty_array_rule_witness :
  evaluatePolicy
    ([] ++ {| tool := lit "*"; effect := Deny; channels := Some []; users := None |}
        :: [])
    (lit "nixclaw_query") (lit "telegram") (lit "user1")
  = evaluatePolicy ([] ++ []) (lit "nixclaw_query") (lit "telegram") (lit "user1").
Proof.
  apply (evaluatePolicy_empty_array_rule []
           [] {| tool := lit "*"; effect := Deny; channels := Some []; users := None |}
           (lit "nixclaw_query") (lit "telegram") (lit "user1")).
  by left.
Defined.

End HostExtras.

Section ApprovalExtras.
Import JS Approval ApprovalRuns.

Lemma index_is_array_step (s : store) (o : op) :
  index_is_array s -> index_is_array (step s o).
Proof.
  intros Harr. destruct o as [uuid now req|id0 d|now maxAgeMs]; cbn [step].
  - rewrite requestApproval_run by done. apply index_is_array_insert.
  - destruct (s !! id0) as [[r|ids]|] eqn:Hr;
      [destruct (status r) eqn:Hst|..];
      try (rewrite decide_run_other; [done|]; intros r' Hr'; congruence).
    rewrite (decide_run_pending id0 d s r) by done. apply index_is_array_insert.
  - by destruct (expireOlderThan_run now maxAgeMs s Harr) as (s' & -> & _ & _ & ?).
Qed.

Lemma step_terminal (s : store) (o : op) (id0 : jsstring) (r : ApprovalRequest) :
  index_is_array s -> s !! id0 = Some (Record_ r) -> status r <> pending ->
  ~ draws id0 o -> step s o !! id0 = Some (Record_ r).
Proof.
  intros Harr Hr Hst Hdraw.
  pose proof (record_not_index _ _ _ Harr Hr) as Hne.
  destruct o as [uuid now req|id1 d|now maxAgeMs]; cbn [step draws] in *.
  - rewrite requestApproval_run by done. cbn [store_of].
    by rewrite !lookup_insert_ne.
  - destruct (s !! id1) as [[r1|ids]|] eqn:Hr1;
      [destruct (status r1) eqn:Hst1|..];
      try (rewrite decide_run_other; [done|]; intros r' Hr'; congruence).
    rewrite (decide_run_pending id1 d s r1) by done. cbn [store_of].
    assert (id1 <> id0) by congruence.
    by rewrite !lookup_insert_ne.
  - destruct (expireOlderThan_run now maxAgeMs s Harr) as (s' & -> & Hs' & _).
    cbn [store_of]. rewrite Hs' by done. unfold expire_at, due. rewrite Hr.
    unfold is_pending. destruct (status r); try done; by rewrite andb_false_r.
Qed.

Lemma step_keeps_records (s : store) (o : op) (id0 : jsstring) (r : ApprovalRequest) :
  index_is_array s -> s !! id0 = Some (Record_ r) ->
  exists r', step s o !! id0 = Some (Record_ r').
Proof.
  intros Harr Hr.
  pose proof (record_not_index _ _ _ Harr Hr) as Hne.
  destruct o as [uuid now req|id1 d|now maxAgeMs]; cbn [step].
  - rewrite requestApproval_run by done. cbn [store_of].
    rewrite lookup_insert_ne by done.
    destruct (base.decide (slice0 uuid 8 = id0)) as [<-|Hid].
    + rewrite lookup_insert_eq. eauto.
    + rewrite lookup_insert_ne by done. eauto.
  - destruct (s !! id1) as [[r1|ids]|] eqn:Hr1;
      [destruct (status r1) eqn:Hst1|..];
      try (rewrite decide_run_other; [eauto|]; intros r' Hr'; congruence).
    rewrite (decide_run_pending id1 d s r1) by done. cbn [store_of].
    rewrite lookup_insert_ne by done.
    destruct (base.decide (id1 = id0)) as [<-|Hid].
    + rewrite lookup_insert_eq. eauto.
    + rewrite lookup_insert_ne by done. eauto.
  - destruct (expireOlderThan_run now maxAgeMs s Harr) as (s' & -> & Hs' & _).
    cbn [store_of]. rewrite Hs' by done. unfold expire_at. rewrite Hr.
    destruct (_ && _); eauto.
Qed.

(** X8. No operation deletes a record: an id that is stored stays stored
    through every later run of operations. A record that has left the
    pending state (allowed, denied or expired) is moreover kept exactly
    as it is by every later [decide] and [expireOlderThan], and by every
    request that draws another id, so the first decision stands. *)
Theorem records_persist :
  forall (s : store) (id0 : jsstring) (r : ApprovalRequest) (ops : list op),
    index_is_array s -> s !! id0 = Some (Record_ r) ->
    (exists r', fold_left step ops s !! id0 = Some (Record_ r'))
    /\ (status r <> pending -> Forall (fun o => ~ draws id0 o) ops ->
        fold_left step ops s !! id0 = Some (Record_ r)).
Proof.
  intros s id0 r ops. revert s r.
  induction ops as [|o ops IH]; intros s r Harr Hr; cbn [fold_left].
  - split; [eauto|done].
  - destruct (step_keeps_records s o id0 r Harr Hr) as [r' Hr'].
    pose proof (index_is_array_step s o Harr) as Harr'. split.
    + by destruct (IH (step s o) r' Harr' Hr') as [? _].
    + intros Hst Hall. inversion Hall as [|? ? Ho Hrest]; subst.
      pose proof (step_terminal s o id0 r Harr Hr Hst Ho) as Hkept.
      destruct (IH (step s o) r Harr' Hkept) as [_ H]. by apply H.
Qed.

Lemma records_persist_witness :
  let s := run_ops
    [ RequestApproval (lit "3f2a9c1e-58d1-4c7a-9b0e-6d2f4a8c1b35") 1000
        {| new_tool := lit "Bash"; new_input := lit "git push origin main";
           new_session := lit "s1"; new_requester := lit "claude-code" |};
      Decide (lit "3f2a9c1e") decide_deny ] in
  exists r,
    s !! lit "3f2a9c1e" = Some (Record_ r) /\ status r = deny
    /\ fold_left step
         [Decide (lit "3f2a9c1e") decide_allow; ExpireOlderThan 5000 0] s
       !! lit "3f2a9c1e" = Some (Record_ r).
Proof.
  intros s.
  assert (exists r, s !! lit "3f2a9c1e" = Some (Record_ r) /\ status r = deny)
    as (r & Hr & Hst).
  { eexists. split; [vm_compute; reflexivity|reflexivity]. }
  exists r. split; [exact Hr|]. split; [exact Hst|].
  apply (records_persist s (lit "3f2a9c1e") r
           [Decide (lit "3f2a9c1e") decide_allow; ExpireOlderThan 5000 0]).
  - apply invariant_run_ops.
  - exact Hr.
  - rewrite Hst. discriminate.
  - repeat constructor; intros [].
Defined.

(** X9. [expireOlderThan] is idempotent: run again with the same clock and
    age on the store it produced, it changes nothing. When no entry of the
    pending index is due it leaves the whole store as it is, the index key
    included. *)
Theorem expireOlderThan_idempotent :
  forall (now maxAgeMs : Z) (s : store),
    index_is_array s ->
    exists s',
      expireOlderThan now maxAgeMs s = Done tt s'
      /\ expireOlderThan now maxAgeMs s' = Done tt s'
      /\ ((forall i, i ∈ pending_index s -> due now maxAgeMs s i = false) -> s' = s).
Proof.
  assert (forall now maxAgeMs (s : store),
            index_is_array s ->
            (forall i, i ∈ pending_index s -> due now maxAgeMs s i = false) ->
            expireOlderThan now maxAgeMs s = Done tt s) as Hquiet.
  { intros now maxAgeMs s Harr Hnone.
    destruct (expire_loop_spec now maxAgeMs (pending_index s) [] s)
      as (acc' & s' & Hrun & Hacc & Hs').
    unfold expireOlderThan. unfold bind at 1. rewrite read_index_ok by done.
    unfold bind at 1. rewrite Hrun.
    assert (acc' = []) as ->.
    { destruct acc' as [|e acc']; [done|].
      destruct (proj1 (Hacc e)) as [H|[Hin Hd]]; [left|inversion H|].
      by rewrite Hnone in Hd. }
    assert (s' = s) as ->; [|done].
    apply map_eq. intros k. rewrite Hs'. unfold expire_at.
    destruct (bool_decide_reflect (k ∈ pending_index s)) as [Hin|Hout]; [|done].
    by rewrite Hnone. }
  intros now maxAgeMs s Harr.
  destruct (expireOlderThan_run now maxAgeMs s Harr)
    as (s' & Hrun & Hs' & Hidx & Harr').
  exists s'. split; [done|]. split.
  - apply Hquiet; [done|]. intros i Hi.
    rewrite Hidx, elem_of_filter_bool, negb_true_iff in Hi. destruct Hi as [Hi Hd].
    destruct (base.decide (i = PENDING_INDEX)) as [->|Hne]; [by apply due_index|].
    unfold due. rewrite Hs' by done. unfold expire_at. rewrite Hd, andb_false_r.
    exact Hd.
  - intros Hnone. rewrite (Hquiet now maxAgeMs s Harr Hnone) in Hrun. congruence.
Qed.

Lemma expireOlderThan_idempotent_witness :
  let s := run_ops
    [ RequestApproval (lit "3f2a9c1e-58d1-4c7a-9b0e-6d2f4a8c1b35") 1000
        {| new_tool := lit "Bash"; new_input := lit "test";
           new_session := lit "s1"; new_requester := lit "x" |} ] in
  exists s',
    expireOlderThan 2000 500 s = Done tt s'
    /\ expireOlderThan 2000 500 s' = Done tt s'.
Proof.
  intros s.
  destruct (expireOlderThan_idempotent 2000 500 s) as (s' & H1 & H2 & _).
  - apply invariant_run_ops.
  - exists s'. split; [exact H1|exact H2].
Defined.

Lemma run_ops_snoc (ops : list op) (o : op) :
  run_ops (ops ++ [o]) = step (run_ops ops) o.
Proof. unfold run_ops. by rewrite fold_left_app. Qed.

(** X10. When the requests of a run draw pairwise different ids,
    [listPending] returns their records in the order in which the requests
    were made, each as [requestApproval] stored it. *)
Theorem listPending_in_request_order :
  forall reqs : list (jsstring * Z * NewRequest),
    NoDup ((fun q => slice0 q.1.1 8) <$> reqs) ->
    let s := run_ops ((fun q => RequestApproval q.1.1 q.1.2 q.2) <$> reqs) in
    listPending s = Done ((fun q => new_record q.1.1 q.1.2 q.2) <$> reqs) s.
Proof.
  intros reqs Hnodup s.
  assert (pending_index s = (fun q => slice0 q.1.1 8) <$> reqs
          /\ forall q, q ∈ reqs ->
                s !! slice0 q.1.1 8 = Some (Record_ (new_record q.1.1 q.1.2 q.2)))
    as [Hidx Hrec].
  { subst s. induction reqs as [|q reqs IH] using rev_ind.
    - split; [done|]. intros q Hq. inversion Hq.
    - rewrite fmap_app in Hnodup. apply NoDup_app in Hnodup as (Hnd & Hfresh & _).
      destruct (IH Hnd) as [Hidx Hrec].
      rewrite !fmap_app. cbn [fmap list_fmap]. rewrite run_ops_snoc. cbn [step].
      set (s0 := run_ops _) in *.
      rewrite requestApproval_run by apply invariant_run_ops. cbn [store_of].
      pose proof (fresh_id_not_index q.1.1) as Hne.
      split.
      + by rewrite pending_index_insert, Hidx.
      + intros q' [Hq'|Hq']%elem_of_app;
          [|apply list_elem_of_singleton in Hq' as ->].
        * rewrite lookup_insert_ne by apply not_eq_sym, fresh_id_not_index.
          rewrite lookup_insert_ne; [by apply Hrec|].
          intros E. apply (Hfresh (slice0 q'.1.1 8)).
          -- apply list_elem_of_fmap. by exists q'.
          -- rewrite <- E. left.
        * rewrite lookup_insert_ne by done. by rewrite lookup_insert_eq. }
  rewrite listPending_run by apply invariant_run_ops. f_equal.
  rewrite Hidx. clear Hidx Hnodup. clearbody s.
  induction reqs as [|q reqs IH]; [done|].
  cbn [fmap list_fmap omap list_omap]. rewrite Hrec by left.
  cbn [pending_record is_pending new_record status]. f_equal.
  apply IH. intros q' Hq'. apply Hrec. by right.
Qed.

Lemma listPending_in_request_order_witness :
  let req := {| new_tool := lit "A"; new_input := lit "1";
                new_session := lit "s1"; new_requester := lit "x" |} in
  let reqs := [ (lit "aaaaaaaa-58d1-4c7a-9b0e-6d2f4a8c1b35", 1000, req);
                (lit "bbbbbbbb-0b7c-4e19-8a44-91c3f7d05e62", 2000, req) ] in
  let s := run_ops ((fun q => RequestApproval q.1.1 q.1.2 q.2) <$> reqs) in
  listPending s = Done ((fun q => new_record q.1.1 q.1.2 q.2) <$> reqs) s.
Proof.
  intros req reqs.
  apply (listPending_in_request_order reqs).
  apply (bool_decide_unpack _). vm_compute. exact I.
Defined.

End ApprovalExtras.

Section PairingExtras.
Import JS Pairing.

Lemma number_to_string_nonempty (n : Z) : number_to_string n <> [].
Proof.
  unfold number_to_string. destruct (Z.to_int n) as [[]|[]]; discriminate.
Qed.

Lemma completePairing_true (userId code : jsstring) (pm : PairingManager) :
  fst (completePairing userId code pm) = true <->
  pendingCodes pm !! userId = Some code /\ code <> [].
Proof.
  unfold completePairing.
  destruct (pendingCodes pm !! userId) as [expected|]; [|split; [done|by intros [? _]]].
  destruct expected as [|c expected]; cbn [orb fst].
  - split; [done|]. intros [[= <-] H]. done.
  - destruct (bool_decide_reflect (c :: expected = code)) as [<-|Hne]; cbn [negb fst].
    + split; [done|]. intros _. done.
    + split; [done|]. intros [[= E] _]. done.
Qed.

Lemma completePairing_success (userId code : jsstring) (pm : PairingManager) :
  pendingCodes pm !! userId = Some code -> code <> [] ->
  completePairing userId code pm
  = (true, {| allowedUsers := allowedUsers pm;
              pendingCodes := delete userId (pendingCodes pm);
              pairedUsers := pairedUsers pm ∪ {[userId]} |}).
Proof.
  intros Hcode Hne. unfold completePairing.
  destruct (pendingCodes pm !! userId) as [expected|]; [|done].
  injection Hcode as ->. destruct code as [|c code]; [done|].
  by rewrite bool_decide_eq_true_2.
Qed.

Lemma step_other_user (pm : PairingManager) (c : call) (u : jsstring) :
  user_of c <> u -> pendingCodes (step pm c) !! u = pendingCodes pm !! u.
Proof.
  intros Hne. destruct c as [n v|v code]; cbn [step user_of] in *.
  - cbn. by rewrite lookup_insert_ne.
  - unfold completePairing. destruct (pendingCodes pm !! v); [|done].
    destruct (_ || _); [done|]. cbn. by rewrite lookup_delete_ne.
Qed.

Lemma step_allowedUsers (pm : PairingManager) (c : call) :
  allowedUsers (step pm c) = allowedUsers pm.
Proof.
  destruct c as [n v|v code]; cbn [step]; [done|].
  unfold completePairing. destruct (pendingCodes pm !! v); [|done].
  by destruct (_ || _).
Qed.

(** X11. A pairing code works once, and only for the user it was issued
    to: after [requestPairing] for a user, and whatever other users do in
    between, [completePairing] for that user succeeds with exactly the
    issued code; the success pairs and authorizes the user and consumes
    the code, so that no code completes a pairing for that user again
    until a new request. *)
Theorem pairing_code_single_use :
  forall (pm : PairingManager) (n : Z) (u : jsstring) (others : list call),
    Forall (fun c => user_of c <> u) others ->
    let code := fst (requestPairing n u pm) in
    let pm1 := fold_left step others (snd (requestPairing n u pm)) in
    let pm2 := snd (completePairing u code pm1) in
    (forall code', fst (completePairing u code' pm1) = bool_decide (code' = code))
    /\ u ∈ pairedUsers pm2
    /\ isAuthorized u pm2 = true
    /\ (forall code', completePairing u code' pm2 = (false, pm2)).
Proof.
  intros pm n u others Hothers code pm1 pm2.
  assert (pendingCodes pm1 !! u = Some code) as Hcode.
  { assert (forall pm0, pendingCodes pm0 !! u = Some code ->
              pendingCodes (fold_left step others pm0) !! u = Some code) as Hkeep.
    { induction Hothers as [|c others Hc _ IH]; intros pm0 Hpm0; [done|].
      cbn [fold_left]. apply IH. by rewrite step_other_user. }
    apply Hkeep. cbn [requestPairing snd pendingCodes]. apply lookup_insert_eq. }
  assert (code <> []) as Hne by apply number_to_string_nonempty.
  assert (completePairing u code pm1
          = (true, {| allowedUsers := allowedUsers pm1;
                      pendingCodes := delete u (pendingCodes pm1);
                      pairedUsers := pairedUsers pm1 ∪ {[u]} |})) as Hdone.
  { by apply completePairing_success. }
  split; [|split; [|split]].
  - intros code'. apply eq_true_iff_eq.
    rewrite completePairing_true, bool_decide_eq_true, Hcode.
    split; [by intros [[= ->] _]|by intros ->].
  - subst pm2. rewrite Hdone. cbn.
    apply elem_of_union. right. by apply elem_of_singleton.
  - subst pm2. rewrite Hdone. unfold isAuthorized. cbn [snd allowedUsers pairedUsers].
    destruct (_ =? _)%nat; [done|]. apply bool_decide_eq_true_2.
    apply elem_of_union. right. by apply elem_of_singleton.
  - intros code'. subst pm2. rewrite Hdone. cbn [snd].
    unfold completePairing. cbn [pendingCodes]. by rewrite lookup_delete_eq.
Qed.

Lemma pairing_code_single_use_witness :
  let pm := new_manager [lit "owner-123"] in
  let code := fst (requestPairing 482913 (lit "new-user") pm) in
  let pm1 := fold_left step [RequestPairing 100000 (lit "someone-else")]
               (snd (requestPairing 482913 (lit "new-user") pm)) in
  let pm2 := snd (completePairing (lit "new-user") code pm1) in
  code = lit "482913" /\ isAuthorized (lit "new-user") pm2 = true.
Proof.
  intros pm code pm1 pm2. split; [reflexivity|].
  apply (pairing_code_single_use pm 482913 (lit "new-user")
           [RequestPairing 100000 (lit "someone-else")]).
  repeat constructor. discriminate.
Defined.

Lemma paired_initially (allowed : list jsstring) (u : jsstring) :
  u ∈ pairedUsers (new_manager allowed) <-> u ∈ allowed.
Proof.
  unfold new_manager. cbn [pairedUsers].
  assert (forall X : gset jsstring,
            u ∈ fold_left (fun paired v => paired ∪ {[v]}) allowed X
            <-> u ∈ X \/ u ∈ allowed) as H.
  { induction allowed as [|v allowed IH]; intros X; cbn [fold_left].
    - split; [by left|]. intros [?|H]; [done|inversion H].
    - rewrite IH, elem_of_cons, elem_of_union, elem_of_singleton. tauto. }
  rewrite H. split; [|by right]. intros [Hin|?]; [|done].
  by apply not_elem_of_empty in Hin.
Qed.

(** X12. After any run of calls on a manager created with a non-empty
    allowlist, a user is authorized exactly when the user is on the
    allowlist or some [completePairing] call of the run for that user
    returned true; with an empty allowlist every user is authorized. *)
Theorem isAuthorized_iff :
  forall (allowed : list jsstring) (calls : list call) (u : jsstring),
    let pm := fold_left step calls (new_manager allowed) in
    (allowed = [] -> isAuthorized u pm = true)
    /\ (allowed <> [] ->
        isAuthorized u pm = true <->
        u ∈ allowed
        \/ exists before code after,
             calls = before ++ CompletePairing u code :: after
             /\ fst (completePairing u code
                       (fold_left step before (new_manager allowed))) = true).
Proof.
  intros allowed calls u pm.
  assert (allowedUsers pm = allowed) as Hallowed.
  { subst pm. generalize (new_manager allowed),
      (eq_refl : allowedUsers (new_manager allowed) = allowed).
    induction calls as [|c calls IH]; intros pm0 H0; [done|].
    cbn [fold_left]. apply IH. by rewrite step_allowedUsers. }
  assert (forall pm0,
            u ∈ pairedUsers (fold_left step calls pm0) <->
            u ∈ pairedUsers pm0
            \/ exists before code after,
                 calls = before ++ CompletePairing u code :: after
                 /\ fst (completePairing u code (fold_left step before pm0)) = true)
    as Hpaired.
  { clear. induction calls as [|c calls IH]; intros pm0; cbn [fold_left].
    - split; [by left|]. intros [?|(before & ? & ? & E & _)]; [done|].
      by destruct before.
    - rewrite IH. split.
      + intros [Hin|(before & code & after & -> & Hok)].
        * destruct c as [n v|v code]; cbn [step] in Hin; [by left|].
          unfold completePairing in Hin.
          destruct (pendingCodes pm0 !! v) as [expected|] eqn:E; [|by left].
          destruct (_ || _) eqn:Hb; [by left|]. cbn in Hin.
          apply elem_of_union in Hin as [?|Hin]; [by left|].
          apply elem_of_singleton in Hin as ->.
          right. exists [], code, calls. split; [done|].
          cbn [fold_left]. unfold completePairing. by rewrite E, Hb.
        * right. by exists (c :: before), code, after.
      + intros [Hin|(before & code & after & E & Hok)].
        * left. destruct c as [n v|v code]; cbn [step]; [done|].
          unfold completePairing. destruct (pendingCodes pm0 !! v); [|done].
          destruct (_ || _); [done|]. cbn. apply elem_of_union. by left.
        * destruct before as [|c' before]; cbn in E; injection E as -> ->.
          -- left. cbn [fold_left] in Hok. cbn [step].
             unfold completePairing in *.
             destruct (pendingCodes pm0 !! u); [|done].
             destruct (_ || _); [done|]. cbn.
             apply elem_of_union. right. by apply elem_of_singleton.
          -- right. by exists before, code, after. }
  unfold isAuthorized. rewrite Hallowed. split.
  - by intros ->.
  - intros Hne. destruct allowed as [|a allowed]; [done|]. cbn [length Nat.eqb].
    subst pm. rewrite bool_decide_eq_true, Hpaired, paired_initially. done.
Qed.

Lemma codes_checked_sound (lo : Z) (count : positive) :
  snd (codes_checked lo count) = true ->
  forall n, lo <= n < lo + Z.pos count -> six_digits (number_to_string n) = true.
Proof.
  unfold codes_checked.
  set (f := fun st : Z * bool =>
              (fst st + 1, snd st && six_digits (number_to_string (fst st)))).
  assert (forall p (st : Z * bool),
            fst (Pos.iter f st p) = fst st + Z.pos p
            /\ (snd (Pos.iter f st p) = true ->
                snd st = true
                /\ forall n, fst st <= n < fst st + Z.pos p ->
                     six_digits (number_to_string n) = true)) as Hiter.
  { intros p. induction p as [p IH|p IH|]; intros st; cbn [Pos.iter].
    - destruct (IH st) as [Hf1 Hs1].
      destruct (IH (Pos.iter f st p)) as [Hf2 Hs2].
      split; [cbn [f fst]; lia|]. cbn [f snd]. intros [H3 Hlast]%andb_true_iff.
      destruct (Hs2 H3) as [H1 Hb2]. destruct (Hs1 H1) as [H0 Hb1].
      split; [done|]. intros n Hn.
      destruct (Z.lt_ge_cases n (fst st + Z.pos p)); [apply Hb1; lia|].
      destruct (Z.lt_ge_cases n (fst st + Z.pos p + Z.pos p));
        [apply Hb2; lia|].
      replace n with (fst (Pos.iter f (Pos.iter f st p) p)) by lia. done.
    - destruct (IH st) as [Hf1 Hs1].
      destruct (IH (Pos.iter f st p)) as [Hf2 Hs2].
      split; [lia|]. intros H3.
      destruct (Hs2 H3) as [H1 Hb2]. destruct (Hs1 H1) as [H0 Hb1].
      split; [done|]. intros n Hn.
      destruct (Z.lt_ge_cases n (fst st + Z.pos p)); [apply Hb1; lia|].
      apply Hb2; lia.
    - cbn [f fst snd]. split; [lia|]. intros [H0 H1]%andb_true_iff.
      split; [done|]. intros n Hn. by replace n with (fst st) by lia. }
  intros Hok n Hn. destruct (Hiter count (lo, true)) as [_ H].
  destruct (H Hok) as [_ Hall]. apply Hall. cbn [fst]. lia.
Qed.

(** X13. Every pairing code is six decimal digits: for each value that
    [randomInt(100000, 999999)] can return, [requestPairing] returns a
    text of six code units, all of them digits, and records that text as
    the pending code of the user. *)
Theorem requestPairing_six_digits :
  forall (pm : PairingManager) (n : Z) (u : jsstring),
    100000 <= n < 999999 ->
    six_digits (fst (requestPairing n u pm)) = true
    /\ pendingCodes (snd (requestPairing n u pm)) !! u
       = Some (fst (requestPairing n u pm)).
Proof.
  intros pm n u Hn. split.
  - cbn [requestPairing fst].
    apply (codes_checked_sound 100000 899999); [|lia].
    vm_compute. reflexivity.
  - cbn. by rewrite lookup_insert_eq.
Qed.

Lemma requestPairing_six_digits_witness :
  six_digits (fst (requestPairing 100000 (lit "unknown-456")
                     (new_manager [lit "owner-123"]))) = true.
Proof.
  apply (requestPairing_six_digits (new_manager [lit "owner-123"]) 100000
           (lit "unknown-456")).
  lia.
Defined.

End PairingExtras.

Section ConversationExtras.
Import JS Conversations.

Lemma add_append (s : store) (c : jsstring * MessageParam) :
  add s c = append c.1 c.2 s.
Proof. destruct c as [conv [[] text]]; reflexivity. Qed.

Lemma getMessages_append (conv conv' : jsstring) (m : MessageParam) (s : store) :
  getMessages conv (append conv' m s)
  = if bool_decide (conv' = conv)
    then slice_last MAX_MESSAGES (getMessages conv s ++ [m])
    else getMessages conv s.
Proof.
  unfold append, getMessages at 1.
  destruct (bool_decide_reflect (conv' = conv)) as [->|Hne].
  - by rewrite lookup_insert_eq.
  - by rewrite lookup_insert_ne.
Qed.

Lemma slice_last_snoc (n : nat) (l : list MessageParam) (m : MessageParam) :
  (0 < n)%nat ->
  slice_last n (slice_last n l ++ [m]) = slice_last n (l ++ [m]).
Proof.
  intros Hn. unfold slice_last.
  rewrite !length_app, length_drop. cbn [length].
  destruct (Nat.le_gt_cases (length l) n) as [Hle|Hgt].
  - replace (length l - n)%nat with 0%nat by lia. rewrite drop_0.
    by replace (length l - 0 + 1 - n)%nat with (length l + 1 - n)%nat by lia.
  - replace (length l - (length l - n) + 1 - n)%nat with 1%nat by lia.
    rewrite !drop_app_le by (rewrite ?length_drop; lia).
    rewrite drop_drop. f_equal. f_equal. lia.
Qed.

(** X14. After any run of [addUserMessage] and [addAssistantMessage] calls
    on an empty store, the history of a conversation is exactly the last
    50 of the messages added to that conversation, in the order added:
    it never holds more than 50 messages, and messages of other
    conversations never enter it. *)
Theorem history_is_last_fifty :
  forall (calls : list (jsstring * MessageParam)) (conv : jsstring),
    getMessages conv (fold_left add calls ∅)
    = slice_last MAX_MESSAGES (sent_to conv calls)
    /\ (length (getMessages conv (fold_left add calls ∅)) <= MAX_MESSAGES)%nat.
Proof.
  intros calls conv.
  assert (getMessages conv (fold_left add calls ∅)
          = slice_last MAX_MESSAGES (sent_to conv calls)) as Heq.
  { induction calls as [|c calls IH] using rev_ind.
    - reflexivity.
    - rewrite fold_left_app. cbn [fold_left]. rewrite add_append.
      rewrite getMessages_append, IH. unfold sent_to.
      rewrite List.filter_app, fmap_app. cbn [List.filter].
      destruct (bool_decide (c.1 = conv)); cbn [fmap list_fmap].
      + apply slice_last_snoc. unfold MAX_MESSAGES. lia.
      + by rewrite app_nil_r. }
  split; [done|]. rewrite Heq. unfold slice_last. rewrite length_drop. lia.
Qed.

End ConversationExtras.

Section RegexCapProps.
Import JS RegexCap.
Context {R : Type}.
Implicit Types (k : @kont R) (caps : captures) (prev : option N) (s : jsstring).

Lemma prev_after_cons prev c read :
  prev_after prev (c :: read) = prev_after (Some c) read.
Proof.
  unfold prev_after. destruct read as [|d read]; [done|].
  rewrite last_cons_cons. destruct (last (d :: read)) eqn:E; [done|].
  by apply last_None in E.
Qed.

Lemma match_literal_app (l : jsstring) k caps prev s :
  match_k (literal l) k caps prev (l ++ s) = k caps (prev_after prev l) s.
Proof.
  revert prev. induction l as [|c l IH]; intros prev; [done|].
  cbn [literal fold_right match_k Chr app]. rewrite N.eqb_refl.
  fold (literal l). by rewrite IH, prev_after_cons.
Qed.

Lemma match_literal_inv (l : jsstring) k caps prev s (x : R) :
  match_k (literal l) k caps prev s = Some x ->
  exists s', s = l ++ s' /\ k caps (prev_after prev l) s' = Some x.
Proof.
  revert prev s. induction l as [|c l IH]; intros prev s; [by exists s|].
  cbn [literal fold_right match_k Chr]. fold (literal l).
  destruct s as [|d s]; [done|].
  destruct (N.eqb_spec c d) as [<-|Hne]; [|done].
  intros (s' & -> & Hk)%IH. exists s'. by rewrite prev_after_cons.
Qed.

Lemma span_exists (p : N -> bool) s :
  exists run rest, s = run ++ rest /\ Forall (fun c => p c = true) run /\ stops p rest.
Proof.
  induction s as [|c s (run & rest & -> & Hrun & Hrest)].
  - by exists [], [].
  - destruct (p c) eqn:Hc.
    + exists (c :: run), rest. split; [done|]. split; [by constructor|done].
    + by exists [], (c :: run ++ rest).
Qed.

(** A greedy class star first offers the longest run to its continuation. *)
Lemma greedy_longest (p : N -> bool) k caps prev (run rest : jsstring) (x : R) :
  Forall (fun c => p c = true) run -> stops p rest ->
  k caps (prev_after prev run) rest = Some x ->
  greedy_k p k caps prev (run ++ rest) = Some x.
Proof.
  intros Hrun Hstop. revert prev.
  induction Hrun as [|c run Hc _ IH]; intros prev Hk; cbn [app].
  - destruct rest as [|c rest]; cbn [greedy_k]; [done|].
    cbn [stops] in Hstop. by rewrite Hstop.
  - cbn [greedy_k]. rewrite Hc. rewrite prev_after_cons in Hk.
    by rewrite (IH _ Hk).
Qed.

(** Whatever a greedy class star returns, its continuation returned it
    after some run of the class. *)
Lemma greedy_inv (p : N -> bool) k caps prev s (x : R) :
  greedy_k p k caps prev s = Some x ->
  exists run rest,
    s = run ++ rest /\ Forall (fun c => p c = true) run
    /\ k caps (prev_after prev run) rest = Some x.
Proof.
  revert prev. induction s as [|c s IH]; intros prev; cbn [greedy_k].
  - intros Hk. by exists [], [].
  - destruct (p c) eqn:Hc.
    + destruct (greedy_k p k caps (Some c) s) as [y|] eqn:Hg; cbn [orelse].
      * intros [= ->]. destruct (IH _ Hg) as (run & rest & -> & Hrun & Hk).
        exists (c :: run), rest. split; [done|]. split; [by constructor|].
        by rewrite prev_after_cons.
      * intros Hk. by exists [], (c :: s).
    + intros Hk. by exists [], (c :: s).
Qed.

End RegexCapProps.

Section ApprovalCommandExtras.
Import JS RegexCap ApprovalCommand.

Lemma orelse_None_r {R : Type} (a : option R) : orelse a None = a.
Proof. by destruct a. Qed.

Lemma exec_from_Bol_later (r : rx) (s : jsstring) :
  forall i c, exec_from (Seq Bol r) i (Some c) s = None.
Proof.
  induction s as [|d s IH]; intros i c; cbn [exec_from match_k orelse]; [done|].
  apply IH.
Qed.

(** A pattern that starts with [^] can only match at the start. *)
Lemma exec_anchored (r : rx) (s : jsstring) :
  exec (Seq Bol r) s
  = match_k r
      (fun caps _ s' =>
         Some {| index := 0; matched := take (length s - length s') s;
                 groups := caps |})
      ∅ None s.
Proof.
  unfold exec. destruct s as [|c s]; cbn [exec_from match_k].
  - apply orelse_None_r.
  - rewrite exec_from_Bol_later. apply orelse_None_r.
Qed.

Lemma take_app_rest (read rest : jsstring) (n : nat) :
  n = length read -> take n (read ++ rest) = read.
Proof. intros ->. by rewrite take_app_length. Qed.

(** The tail [\s+(\S+)] of the command pattern, followed by a continuation
    that accepts whatever is left. *)
Lemma command_tail_iff {R : Type} (f : captures -> jsstring -> R)
    (caps : captures) (prev : option N) (s : jsstring) (x : R) :
  match_k (Seq (Plus is_space) (Group 2 (Plus not_space)))
    (fun caps' _ s' => Some (f caps' s')) caps prev s = Some x
  <->
  exists ws ident rest,
    s = ws ++ ident ++ rest
    /\ ws <> [] /\ Forall (fun c => is_space c = true) ws
    /\ ident <> [] /\ Forall (fun c => is_space c = false) ident
    /\ stops not_space rest
    /\ x = f (<[2%nat := ident]> caps) rest.
Proof.
  assert (forall ident, Forall (fun c => not_space c = true) ident <->
                        Forall (fun c => is_space c = false) ident) as Hns.
  { intros ident. apply Forall_proper; [|done]. intros c.
    unfold not_space. by rewrite negb_true_iff. }
  cbn [Plus match_k]. split.
  - destruct s as [|c0 s]; [done|].
    destruct (is_space c0) eqn:Hc0; [|done].
    intros (run & post & -> & Hrun & Hpost)%greedy_inv.
    destruct post as [|j0 post]; [done|].
    destruct (not_space j0) eqn:Hj0; [|done].
    destruct (span_exists not_space post) as (run2 & rest & -> & Hrun2 & Hstop).
    erewrite greedy_longest in Hpost; [|done|done|reflexivity].
    injection Hpost as <-.
    exists (c0 :: run), (j0 :: run2), rest.
    split; [done|]. split; [done|]. split; [by constructor|].
    split; [done|]. split.
    { apply Hns. by constructor. }
    split; [done|].
    change (j0 :: run2 ++ rest) with ((j0 :: run2) ++ rest).
    by rewrite (take_app_rest (j0 :: run2) rest)
      by (rewrite ?length_app; cbn [length app]; rewrite ?length_app; lia).
  - intros (ws & ident & rest & -> & Hws & Hspace & Hid & Hident & Hstop & ->).
    destruct ws as [|c0 ws]; [done|]. inversion Hspace as [|? ? Hc0 Hws']; subst.
    cbn [app]. rewrite Hc0.
    destruct ident as [|j0 ident]; [done|].
    apply Hns in Hident. inversion Hident as [|? ? Hj0 Hid']; subst.
    apply greedy_longest; [done| |].
    { cbn [app stops]. unfold not_space in Hj0.
      by apply negb_true_iff in Hj0. }
    cbn [app]. rewrite Hj0.
    erewrite greedy_longest; [|done|done|reflexivity].
    change (j0 :: ident ++ rest) with ((j0 :: ident) ++ rest).
    by rewrite (take_app_rest (j0 :: ident) rest)
      by (rewrite ?length_app; cbn [length app]; rewrite ?length_app; lia).
Qed.

Lemma command_match_iff (g : captures -> jsstring -> match_result)
    (text : jsstring) (c : command) :
  (forall caps s', groups (g caps s') = caps) ->
  match
    match_k
      (Seq (Chr 47)
         (Seq (Group 1 (Alt (RegexCap.text "allow") (RegexCap.text "deny")))
            (Seq (Plus is_space) (Group 2 (Plus not_space)))))
      (fun caps _ s' => Some (g caps s')) ∅ None text
  with
  | None => None
  | Some m => Some {| decision := groups m !! 1%nat; id := groups m !! 2%nat |}
  end = Some c
  <->
  exists word ws ident rest,
    text = lit "/" ++ word ++ ws ++ ident ++ rest
    /\ (word = lit "allow" \/ word = lit "deny")
    /\ ws <> [] /\ Forall (fun c => is_space c = true) ws
    /\ ident <> [] /\ Forall (fun c => is_space c = false) ident
    /\ stops not_space rest
    /\ c = {| decision := Some word; id := Some ident |}.
Proof.
  intros Hg. split.
  - destruct (match_k _ _ ∅ None text) as [m|] eqn:Hm; [|done].
    intros [= <-]. revert Hm. cbn [match_k Chr].
    destruct text as [|c0 t]; [done|].
    destruct (N.eqb_spec 47 c0) as [<-|?]; [|done].
    unfold orelse at 1.
    destruct (match_k (RegexCap.text "allow") _ ∅ (Some 47%N) t) as [m'|] eqn:Hallow.
    + intros [= ->]. apply match_literal_inv in Hallow as (s' & -> & Htail).
      apply (command_tail_iff g) in Htail
        as (ws & ident & rest & -> & Hws & Hspace & Hid & Hident & Hstop & ->).
      exists (lit "allow"), ws, ident, rest.
      split; [done|]. split; [by left|].
      do 5 (split; [done|]). rewrite Hg.
      rewrite (take_app_rest (lit "allow")) by (rewrite length_app; lia).
      by rewrite lookup_insert_ne, !lookup_insert_eq.
    + intros (s' & -> & Htail)%match_literal_inv.
      apply (command_tail_iff g) in Htail
        as (ws & ident & rest & -> & Hws & Hspace & Hid & Hident & Hstop & ->).
      exists (lit "deny"), ws, ident, rest.
      split; [done|]. split; [by right|].
      do 5 (split; [done|]). rewrite Hg.
      rewrite (take_app_rest (lit "deny")) by (rewrite length_app; lia).
      by rewrite lookup_insert_ne, !lookup_insert_eq.
  - intros (word & ws & ident & rest & -> & Hword & Hws & Hspace & Hid & Hident
            & Hrest & ->).
    assert (forall caps prev,
              match_k (Seq (Plus is_space) (Group 2 (Plus not_space)))
                (fun caps _ s' => Some (g caps s')) caps prev (ws ++ ident ++ rest)
              = Some (g (<[2%nat := ident]> caps) rest)) as Htail.
    { intros caps prev. apply (command_tail_iff g). by exists ws, ident, rest. }
    cbn [match_k] in Htail. cbn [match_k Chr].
    change (lit "/" ++ word ++ ws ++ ident ++ rest)
      with (47%N :: word ++ ws ++ ident ++ rest).
    cbn [N.eqb Pos.eqb].
    destruct Hword as [-> | ->].
    + unfold RegexCap.text at 1. rewrite match_literal_app, Htail. cbn [orelse].
      rewrite Hg.
      rewrite (take_app_rest (lit "allow")) by (rewrite length_app; lia).
      by rewrite lookup_insert_ne, !lookup_insert_eq.
    + replace (match_k (RegexCap.text "allow") _ ∅ (Some 47%N)
                 (lit "deny" ++ ws ++ ident ++ rest))
        with (@None match_result) by reflexivity.
      cbn [orelse]. unfold RegexCap.text. rewrite match_literal_app, Htail.
      rewrite Hg.
      rewrite (take_app_rest (lit "deny")) by (rewrite length_app; lia).
      by rewrite lookup_insert_ne, !lookup_insert_eq.
Qed.

(** X15. [parseApprovalCommand] accepts exactly the texts that start with
    [/allow] or [/deny], then at least one white-space character, then at
    least one other character. The decision is that word, and the id is
    the whole run of characters up to the next white space or the end, so
    an id never contains white space and anything after it is ignored;
    every other text gives [null]. *)
Theorem parseApprovalCommand_iff :
  forall (text : jsstring) (c : command),
    parseApprovalCommand text = Some c <->
    exists word ws ident rest,
      text = lit "/" ++ word ++ ws ++ ident ++ rest
      /\ (word = lit "allow" \/ word = lit "deny")
      /\ ws <> [] /\ Forall (fun c => is_space c = true) ws
      /\ ident <> [] /\ Forall (fun c => is_space c = false) ident
      /\ match rest with [] => True | c :: _ => is_space c = true end
      /\ c = {| decision := Some word; id := Some ident |}.
Proof.
  intros text c. unfold parseApprovalCommand, command_pattern.
  rewrite exec_anchored.
  rewrite (command_match_iff
             (fun caps s' =>
                {| index := 0; matched := take (length text - length s') text;
                   groups := caps |})) by done.
  assert (forall rest, stops not_space rest <->
            match rest with [] => True | c :: _ => is_space c = true end) as Hstops.
  { intros [|d rest]; [done|]. cbn [stops]. unfold not_space.
    by rewrite negb_false_iff. }
  split; intros (word & ws & ident & rest & H1 & H2 & H3 & H4 & H5 & H6 & H7 & H8);
    exists word, ws, ident, rest; do 6 (split; [done|]);
    (split; [by apply Hstops|done]).
Qed.

End ApprovalCommandExtras.

Section TelegramExtras.
Import JS RegexCap ApprovalCommand Pairing Telegram.

Lemma code_pattern_six_digits (text : jsstring) :
  (exists m, exec code_pattern text = Some m) <-> six_digits text = true.
Proof.
  unfold code_pattern. rewrite exec_anchored. unfold six_digits.
  change (fun c : N => ((48 <=? c) && (c <=? 57))%N) with is_digit.
  destruct text as [|c1 [|c2 [|c3 [|c4 [|c5 [|c6 [|c7 t]]]]]]];
    cbn [match_k length Nat.eqb forallb andb];
    repeat (match goal with |- context [is_digit ?c] => destruct (is_digit c) end);
    cbn [andb]; split; try done; try (by intros [? ?]); eauto.
Qed.

(** X16. The handler of Telegram text messages hands nothing on from a
    user who is not authorized: it only replies (and logs a pairing code).
    From an authorized user it emits exactly one event and leaves the
    pairing state as it is: the decision when the text is an approval
    command, which is then not forwarded as a message, and otherwise the
    message itself, attributed to that user on the telegram channel. *)
Theorem on_text_gate :
  forall (n : Z) (uuid userId text : jsstring) (date : Z) (pairing : PairingManager),
    let r := on_text n uuid userId text date pairing in
    (isAuthorized userId pairing = false ->
       Forall (fun e => is_emit e = false) r.1)
    /\ (isAuthorized userId pairing = true ->
        r.2 = pairing
        /\ List.filter is_emit r.1
           = [ match parseApprovalCommand text with
               | Some cmd => EmitApprovalDecide cmd
               | None =>
                   EmitMessageIncoming
                     {| msg_id := uuid; channel := lit "telegram";
                        sender := userId; msg_text := text;
                        timestamp := date * 1000 |}
               end ]).
Proof.
  intros n uuid userId text date pairing r. subst r. unfold on_text.
  destruct (isAuthorized userId pairing); cbn [negb].
  - split; [done|]. intros _. by destruct (parseApprovalCommand text).
  - split; [|done]. intros _.
    destruct (exec code_pattern text).
    + destruct (completePairing userId text pairing) as [[] ?];
        by repeat constructor.
    + by repeat constructor.
Qed.

(** X17. How a user who is not yet authorized gets paired through the
    chat: a six-digit text that is the pending code of that user pairs and
    authorizes the user and uses the code up; a six-digit text that is not
    changes nothing; any other text issues a new code, which replaces the
    pending one, and authorizes nobody. *)
Theorem on_text_pairing :
  forall (n : Z) (uuid userId text : jsstring) (date : Z) (pairing : PairingManager),
    isAuthorized userId pairing = false ->
    let pairing' := (on_text n uuid userId text date pairing).2 in
    (six_digits text = true -> pendingCodes pairing !! userId = Some text ->
       isAuthorized userId pairing' = true
       /\ pendingCodes pairing' !! userId = None)
    /\ (six_digits text = true -> pendingCodes pairing !! userId <> Some text ->
        pairing' = pairing)
    /\ (six_digits text = false ->
        pendingCodes pairing' !! userId = Some (number_to_string n)
        /\ pairedUsers pairing' = pairedUsers pairing
        /\ allowedUsers pairing' = allowedUsers pairing).
Proof.
  intros n uuid userId text date pairing Hno pairing'. subst pairing'.
  unfold on_text. rewrite Hno. cbn [negb].
  pose proof (code_pattern_six_digits text) as Hsix.
  destruct (exec code_pattern text) as [m|].
  - assert (six_digits text = true) as Hd by (apply Hsix; eauto).
    split; [|split; [|congruence]].
    + intros _ Hcode.
      assert (text <> []) as Hne by (by destruct text).
      rewrite (completePairing_success _ _ _ Hcode Hne). cbn [snd].
      split; [|apply lookup_delete_eq].
      unfold isAuthorized. cbn [allowedUsers pairedUsers].
      destruct (_ =? _)%nat; [done|]. apply bool_decide_eq_true_2.
      apply elem_of_union. right. by apply elem_of_singleton.
    + intros _ Hcode.
      destruct (completePairing userId text pairing) as [success pm'] eqn:Hc.
      assert (success = false) as ->.
      { apply not_true_is_false. intros ->.
        apply Hcode. by apply (completePairing_true userId text pairing); rewrite Hc. }
      assert (pm' = pairing) as ->; [|done].
      revert Hc. unfold completePairing.
      destruct (pendingCodes pairing !! userId); [|congruence].
      destruct (_ || _); congruence.
  - assert (six_digits text = false) as Hd.
    { apply not_true_is_false. intros [m Hm]%Hsix. done. }
    split; [congruence|]. split; [congruence|]. intros _.
    cbn [requestPairing snd pendingCodes pairedUsers allowedUsers].
    by rewrite lookup_insert_eq.
Qed.

Lemma on_text_pairing_witness :
  let pm := (requestPairing 482913 (lit "new-user") (new_manager [lit "owner-123"])).2 in
  isAuthorized (lit "new-user") pm = false
  /\ isAuthorized (lit "new-user")
       (on_text 100000 (lit "3f2a9c1e-58d1-4c7a-9b0e-6d2f4a8c1b35")
          (lit "new-user") (lit "482913") 1700000000 pm).2 = true.
Proof.
  intros pm. split; [reflexivity|].
  apply (on_text_pairing 100000 (lit "3f2a9c1e-58d1-4c7a-9b0e-6d2f4a8c1b35")
           (lit "new-user") (lit "482913") 1700000000 pm); reflexivity.
Defined.

End TelegramExtras.

Section HookExtras.
Import JS Hook.
Context (jq_id jq_status : jsstring -> jq_result).

Lemma poll_loop_allow (poll : nat -> curl_result) (remaining : nat) :
  forall i,
    poll_loop jq_status poll i remaining = Printed (decision_line (lit "allow")) <->
    exists k, (i <= k < i + remaining)%nat
              /\ decision_at jq_status poll k = JqPrints (lit "allow")
              /\ forall j, (i <= j < k)%nat -> undecided jq_status poll j.
Proof.
  induction remaining as [|remaining IH]; intros i; cbn [poll_loop].
  - split.
    + by intros [=].
    + intros (k & Hk & _). lia.
  - fold (decision_at jq_status poll i).
    destruct (decision_at jq_status poll i) as [|d] eqn:Hd.
    + split; [done|]. intros (k & Hk & Hallow & Hbefore).
      destruct (base.decide (k = i)) as [->|Hne]; [congruence|].
      destruct (Hbefore i) as (d & Hd' & _); [lia|congruence].
    + destruct (bool_decide_reflect (d = lit "allow")) as [->|Hna]; cbn [orb].
      * split; [|done]. intros _. exists i. split; [lia|]. split; [done|].
        intros j Hj. lia.
      * destruct (bool_decide_reflect (d = lit "deny")) as [->|Hnd].
        -- split.
           ++ by intros [=].
           ++ intros (k & Hk & Hallow & Hbefore).
              destruct (base.decide (k = i)) as [->|Hne]; [congruence|].
              destruct (Hbefore i) as (d & Hd' & _ & Hdeny); [lia|congruence].
        -- rewrite IH. split.
           ++ intros (k & Hk & Hallow & Hbefore). exists k.
              split; [lia|]. split; [done|]. intros j Hj.
              destruct (base.decide (j = i)) as [->|Hne]; [by exists d|].
              apply Hbefore. lia.
           ++ intros (k & Hk & Hallow & Hbefore).
              destruct (base.decide (k = i)) as [->|Hne]; [congruence|].
              exists k. split; [lia|]. split; [done|]. intros j Hj.
              apply Hbefore. lia.
Qed.

Lemma poll_loop_results (poll : nat -> curl_result) (remaining : nat) :
  forall i,
    poll_loop jq_status poll i remaining = Stopped
    \/ poll_loop jq_status poll i remaining = Printed (decision_line (lit "allow"))
    \/ poll_loop jq_status poll i remaining = Printed (decision_line (lit "deny")).
Proof.
  induction remaining as [|remaining IH]; intros i; cbn [poll_loop]; [auto|].
  destruct (jq_status _) as [|d]; [auto|].
  destruct (bool_decide_reflect (d = lit "allow")) as [->|Hna]; cbn [orb]; [auto|].
  destruct (bool_decide_reflect (d = lit "deny")) as [->|Hnd]; auto.
Qed.

(** X18. The hook fails closed. It prints the allow decision exactly when
    [jq] is installed, the request for approval returned a usable id, and
    within [TIMEOUT] polls some poll reported the status [allow] while
    every earlier poll reported something else than [allow] and [deny]
    (a failed request counts as [{}]). In every other case it prints the
    deny decision, or is stopped by a failing [jq] without printing
    anything: no server answer, no id, a deny, an expired or pending
    status until the timeout all end in deny. *)
Theorem hook_fails_closed :
  forall (jq_installed : bool) (TIMEOUT : nat) (post : curl_result)
         (poll : jsstring -> nat -> curl_result),
    let result := hook jq_id jq_status jq_installed TIMEOUT post poll in
    (result = Printed (decision_line (lit "allow")) <->
       jq_installed = true
       /\ exists RESPONSE REQUEST_ID k,
            post = CurlBody RESPONSE
            /\ jq_id RESPONSE = JqPrints REQUEST_ID
            /\ REQUEST_ID <> [] /\ REQUEST_ID <> lit "null"
            /\ (1 <= k <= TIMEOUT)%nat
            /\ decision_at jq_status (poll REQUEST_ID) k = JqPrints (lit "allow")
            /\ forall j, (1 <= j < k)%nat -> undecided jq_status (poll REQUEST_ID) j)
    /\ (result = Stopped
        \/ result = Printed (decision_line (lit "allow"))
        \/ result = Printed (decision_line (lit "deny"))).
Proof.
  intros jq_installed TIMEOUT post poll result. subst result. unfold hook.
  destruct jq_installed; cbn [negb].
  2:{ split; [|auto]. split.
      - by intros [=].
      - by intros [? _]. }
  destruct post as [|RESPONSE].
  { split; [|auto]. split.
    - by intros [=].
    - by intros (_ & ? & ? & ? & ? & _). }
  destruct (jq_id RESPONSE) as [|REQUEST_ID] eqn:Hid.
  { split; [|auto]. split; [done|].
    intros (_ & R & i & k & [= <-] & ? & _). congruence. }
  destruct (bool_decide_reflect (REQUEST_ID = [])) as [->|Hne]; cbn [orb].
  { split; [|auto]. split.
    - by intros [=].
    - intros (_ & R & i & k & [= <-] & ? & ? & _). congruence. }
  destruct (bool_decide_reflect (REQUEST_ID = lit "null")) as [->|Hnn].
  { split; [|auto]. split.
    - by intros [=].
    - intros (_ & R & i & k & [= <-] & ? & ? & ? & _). congruence. }
  split; [|apply poll_loop_results].
  rewrite poll_loop_allow. split.
  - intros (k & Hk & Hallow & Hbefore). split; [done|].
    exists RESPONSE, REQUEST_ID, k. repeat split; try done; lia.
  - intros (_ & R & i & k & [= <-] & Hi & _ & _ & Hk & Hallow & Hbefore).
    assert (i = REQUEST_ID) as -> by congruence.
    exists k. split; [lia|]. split; [done|]. done.
Qed.

End HookExtras.

Section LazyProps.
Import JS RegexCap.
Context {R : Type}.
Implicit Types (k : @kont R) (caps : captures) (prev : option N) (s : jsstring).

(** Whatever a lazy class star returns, its continuation returned it
    after some run of the class. *)
Lemma lazy_inv (p : N -> bool) k caps prev s (x : R) :
  lazy_k p k caps prev s = Some x ->
  exists run rest,
    s = run ++ rest /\ Forall (fun c => p c = true) run
    /\ k caps (prev_after prev run) rest = Some x.
Proof.
  revert prev. induction s as [|c s IH]; intros prev; cbn [lazy_k].
  - rewrite orelse_None_r. intros Hk. by exists [], [].
  - destruct (k caps prev (c :: s)) as [y|] eqn:Hk; cbn [orelse].
    + intros [= ->]. by exists [], (c :: s).
    + destruct (p c) eqn:Hc; [|done].
      intros (run & rest & -> & Hrun & Hk')%IH.
      exists (c :: run), rest. split; [done|]. split; [by constructor|].
      by rewrite prev_after_cons.
Qed.

(** A lazy class star returns what its continuation returns after the
    shortest run that the continuation accepts. *)
Lemma lazy_shortest (p : N -> bool) k caps (run rest : jsstring) (x : R) :
  forall prev,
    Forall (fun c => p c = true) run ->
    k caps (prev_after prev run) rest = Some x ->
    (forall run1 run2, run = run1 ++ run2 -> run2 <> [] ->
       k caps (prev_after prev run1) (run2 ++ rest) = None) ->
    lazy_k p k caps prev (run ++ rest) = Some x.
Proof.
  induction run as [|c run IH]; intros prev Hrun Hk Hshort.
  - cbn [app]. change (prev_after prev []) with prev in Hk.
    destruct rest as [|c rest]; cbn [lazy_k]; by rewrite Hk.
  - cbn [app lazy_k].
    pose proof (Hshort [] (c :: run) eq_refl) as H0.
    change (prev_after prev []) with prev in H0. cbn [app] in H0.
    rewrite H0 by done. cbn [orelse].
    inversion Hrun as [|? ? Hc Hrun']; subst. rewrite Hc.
    apply IH; [done|by rewrite <- (prev_after_cons prev)|].
    intros run1 run2 -> Hne. rewrite <- (prev_after_cons prev).
    by apply (Hshort (c :: run1) run2).
Qed.

End LazyProps.

Section GenerationsExtras.
Import JS RegexCap Generations.

Lemma greedy_whole {R : Type} (p : N -> bool) (k : @kont R) (caps : captures)
    (prev : option N) (s : jsstring) (x : R) :
  Forall (fun c => p c = true) s ->
  k caps (prev_after prev s) [] = Some x ->
  greedy_k p k caps prev s = Some x.
Proof.
  intros Hs Hk. rewrite <- (app_nil_r s). by apply greedy_longest.
Qed.

Lemma is_digit_dot (c : N) : is_digit c = true -> dot c = true.
Proof.
  unfold is_digit, dot. intros [H1 H2]%andb_true_iff.
  apply N.leb_le in H1, H2. apply negb_true_iff. cbn [existsb].
  rewrite !orb_false_iff. repeat split; try done; apply N.eqb_neq; lia.
Qed.

(** X19. [nameVersion] splits a store-path name at its last dash: it
    succeeds exactly on a non-empty name without line terminators, a dash,
    and a version that starts with a digit and goes on with digits and
    dots up to the end; names without such a version suffix give [null]. *)
Theorem nameVersion_iff :
  forall (s : jsstring) (nv : NameVersion),
    nameVersion s = Some nv <->
    s = name nv ++ lit "-" ++ version nv
    /\ name nv <> [] /\ Forall (fun c => dot c = true) (name nv)
    /\ exists d ver, version nv = d :: ver /\ is_digit d = true
                     /\ Forall (fun c => digit_or_dot c = true) ver.
Proof.
  intros s nv. unfold nameVersion, name_version_pattern. rewrite exec_anchored.
  set (kf := fun (caps : captures) (_ : option N) (s' : jsstring) =>
               Some {| index := 0; matched := take (length s - length s') s;
                       groups := caps |}).
  cbn [match_k LazyPlus].
  assert (Hshape : forall caps prev rest y,
    match_k (Chr 45)
      (fun caps' prev' s' =>
         match_k (Group 2 (Seq (Any is_digit) (Greedy digit_or_dot)))
           (fun caps'' prev'' s'' => match_k Eol kf caps'' prev'' s'') caps' prev' s')
      caps prev rest = Some y ->
    exists d ver, rest = 45%N :: d :: ver /\ is_digit d = true
                  /\ Forall (fun c => digit_or_dot c = true) ver
                  /\ groups y = <[2%nat := d :: ver]> caps).
  { intros caps prev rest y. cbn [match_k Chr].
    destruct rest as [|c rest]; [done|].
    destruct (N.eqb_spec 45 c) as [<-|?]; [|done].
    destruct rest as [|d rest]; [done|].
    destruct (is_digit d) eqn:Hd; [|done].
    intros (run & rest' & -> & Hrun & Hk)%greedy_inv.
    destruct rest' as [|? ?]; [|done]. injection Hk as <-.
    exists d, run. rewrite app_nil_r. split; [done|]. split; [done|].
    split; [done|]. cbn [groups].
    by rewrite take_ge by (cbn [length]; lia). }
  split.
  - destruct s as [|c0 s0] eqn:Hs; [done|].
    destruct (dot c0) eqn:Hc0; [|done].
    destruct (lazy_k dot _ ∅ (Some c0) s0) as [m|] eqn:Hm; [|done].
    intros [= <-]. apply lazy_inv in Hm as (run & rest & -> & Hrun & Hk).
    apply Hshape in Hk as (d & ver & -> & Hd & Hver & Hg).
    unfold group_text. rewrite Hg. cbn [name version].
    rewrite lookup_insert_ne, !lookup_insert_eq by done. cbn [default].
    rewrite (take_app_rest (c0 :: run) (45%N :: d :: ver))
      by (cbn [length]; rewrite ?length_app; cbn [length]; lia).
    split; [done|]. split; [done|]. split; [by constructor|]. eauto.
  - intros (Hs & Hname & Hdot & d & ver & Hv & Hd & Hver).
    destruct nv as [nm vs]. cbn [name version] in *. subst vs.
    destruct nm as [|c0 nm]; [done|].
    inversion Hdot as [|? ? Hc0 Hnm]; subst. cbn [app]. rewrite Hc0.
    change (lit "-" ++ d :: ver) with (45%N :: d :: ver).
    erewrite lazy_shortest; [| exact Hnm | |].
    2:{ cbn [match_k Chr N.eqb Pos.eqb]. rewrite Hd.
        erewrite greedy_whole; [|done|reflexivity]. reflexivity. }
    2:{ intros run1 run2 -> Hne.
        destruct (match_k (Chr 45) _ _ _ (run2 ++ 45%N :: d :: ver)) as [y|] eqn:Hy;
          [|done].
        apply Hshape in Hy as (d' & ver' & E & Hd' & Hver' & _).
        destruct run2 as [|c run2]; [done|]. cbn [app] in E.
        injection E as -> E.
        assert (45%N ∈ d' :: ver') as Hin.
        { rewrite <- E. apply elem_of_app. right. left. }
        apply elem_of_cons in Hin as [<-|Hin]; [done|].
        rewrite Forall_forall in Hver'. by apply Hver' in Hin. }
    unfold group_text. cbn [groups name version].
    rewrite lookup_insert_ne, !lookup_insert_eq by done. cbn [default id].
    change (c0 :: nm ++ 45%N :: d :: ver) with ((c0 :: nm) ++ 45%N :: d :: ver).
    rewrite (take_app_rest (c0 :: nm) (45%N :: d :: ver))
      by (rewrite ?length_app; cbn [length]; lia).
    by rewrite take_ge by (cbn [length]; lia).
Qed.

Lemma map_get_set (k k' v : jsstring) (m : Map) :
  map_get k' (map_set k v m) = if bool_decide (k = k') then Some v else map_get k' m.
Proof.
  induction m as [|[k0 v0] m IH]; cbn [map_set map_get]; [done|].
  destruct (bool_decide_reflect (k0 = k)) as [->|Hne]; cbn [map_get].
  - by destruct (bool_decide (k = k')).
  - rewrite IH. destruct (bool_decide_reflect (k0 = k')) as [->|Hne']; [|done].
    by rewrite bool_decide_eq_false_2 by congruence.
Qed.

Lemma map_set_keys (k v : jsstring) (m : Map) :
  NoDup m.*1 -> NoDup (map_set k v m).*1
  /\ forall k', k' ∈ (map_set k v m).*1 <-> k' = k \/ k' ∈ m.*1.
Proof.
  induction m as [|[k0 v0] m IH]; intros Hnd; cbn [map_set].
  - split; [apply NoDup_singleton|]. intros k'. cbn.
    rewrite list_elem_of_singleton. split; [by left|]. intros [?|H]; [done|].
    inversion H.
  - cbn [fmap list_fmap fst] in Hnd. apply NoDup_cons in Hnd as [Hk0 Hnd].
    destruct (IH Hnd) as [IH1 IH2].
    destruct (bool_decide_reflect (k0 = k)) as [->|Hne];
      cbn [fmap list_fmap fst].
    + split; [by apply NoDup_cons|]. intros k'. rewrite elem_of_cons. tauto.
    + split.
      * apply NoDup_cons. split; [|done]. rewrite IH2. intros [?|?]; done.
      * intros k'. rewrite !elem_of_cons, IH2. tauto.
Qed.

Lemma map_get_elem (m : Map) (k v : jsstring) :
  NoDup m.*1 -> (k, v) ∈ m <-> map_get k m = Some v.
Proof.
  induction m as [|[k0 v0] m IH]; intros Hnd; cbn [map_get].
  - split; [intros H; inversion H|done].
  - cbn [fmap list_fmap fst] in Hnd. apply NoDup_cons in Hnd as [Hk0 Hnd].
    rewrite elem_of_cons, (IH Hnd).
    destruct (bool_decide_reflect (k0 = k)) as [->|Hne].
    + split.
      * intros [[= ->]|Hget]; [done|].
        destruct Hk0. apply list_elem_of_fmap. exists (k, v).
        split; [done|]. by apply IH.
      * intros [= ->]. by left.
    + split; [|by right]. intros [[= ? ?]|?]; [congruence|done].
Qed.

Lemma version_map_keys (pkgs : list jsstring) : NoDup (version_map pkgs).*1.
Proof.
  unfold version_map.
  assert (forall m : Map, NoDup m.*1 ->
            NoDup (fold_left
                     (fun m p => match nameVersion p with
                                 | Some nv => map_set (name nv) (version nv) m
                                 | None => m
                                 end) pkgs m).*1) as H.
  { induction pkgs as [|p pkgs IH]; intros m Hm; [done|]. cbn [fold_left].
    apply IH. destruct (nameVersion p); [|done]. by apply map_set_keys. }
  apply H. constructor.
Qed.

Lemma version_map_get (pkgs : list jsstring) (n : jsstring) :
  map_get n (version_map pkgs) = latest_version pkgs n.
Proof.
  unfold version_map.
  assert (forall m : Map,
            map_get n (fold_left
                         (fun m p => match nameVersion p with
                                     | Some nv => map_set (name nv) (version nv) m
                                     | None => m
                                     end) pkgs m)
            = match latest_version pkgs n with
              | Some v => Some v
              | None => map_get n m
              end) as H.
  { induction pkgs as [|p pkgs IH]; intros m; [done|]. cbn [fold_left latest_version].
    rewrite IH. destruct (latest_version pkgs n); [done|].
    destruct (nameVersion p) as [nv|]; [|done]. rewrite map_get_set.
    by destruct (bool_decide (name nv = n)). }
  rewrite H. by destruct (latest_version pkgs n).
Qed.

Lemma latest_version_nonempty (pkgs : list jsstring) (n v : jsstring) :
  latest_version pkgs n = Some v -> v <> [].
Proof.
  induction pkgs as [|p pkgs IH]; cbn [latest_version]; [done|].
  destruct (latest_version pkgs n); [by intros [= ->]; apply IH|].
  destruct (nameVersion p) as [nv|] eqn:Hp; [|done].
  destruct (bool_decide (name nv = n)); [|done]. intros [= <-].
  apply nameVersion_iff in Hp as (_ & _ & _ & d & ver & -> & _). done.
Qed.

Lemma compare_new_fold (oldMap newMap : Map) :
  forall acc : list jsstring * list Change,
    let r := fold_left (compare_new oldMap) newMap acc in
    (forall s, s ∈ r.1 <->
       s ∈ acc.1
       \/ exists n v, (n, v) ∈ newMap /\ s = dashed n v
                      /\ (map_get n oldMap = None \/ map_get n oldMap = Some []))
    /\ (forall c, c ∈ r.2 <->
         c ∈ acc.2
         \/ exists n v ov, (n, v) ∈ newMap /\ map_get n oldMap = Some ov
                           /\ ov <> [] /\ ov <> v
                           /\ c = {| pkg := n; from_ := ov; to_ := v |}).
Proof.
  induction newMap as [|[n v] newMap IH]; intros acc; cbn [fold_left].
  - split; intros x; (split; [by left|]).
    + intros [?|(? & ? & H & _)]; [done|inversion H].
    + intros [?|(? & ? & ? & H & _)]; [done|inversion H].
  - destruct (IH (compare_new oldMap acc (n, v))) as [IHa IHc]. split.
    + intros s. rewrite IHa. unfold compare_new.
      destruct (map_get n oldMap) as [[|o ov]|] eqn:Hget; cbn [fst].
      * rewrite elem_of_app, list_elem_of_singleton. split.
        -- intros [[?| ->]|(n' & v' & Hin & ? & ?)]; [by left| |].
           ++ right. exists n, v. split; [left|]. by split; [|right].
           ++ right. exists n', v'. split; [by right|done].
        -- intros [?|(n' & v' & Hin & -> & Hor)]; [by left; left|].
           apply elem_of_cons in Hin as [[= -> ->]|Hin]; [by left; right|].
           right. by exists n', v'.
      * destruct (negb _); cbn [fst]; split.
        all: try (intros [?|(n' & v' & Hin & ? & ?)]; [by left|];
                  right; exists n', v'; split; [by right|done]).
        all: intros [?|(n' & v' & Hin & -> & Hor)]; [by left|];
          apply elem_of_cons in Hin as [[= -> ->]|Hin];
          [rewrite Hget in Hor; by destruct Hor|];
          right; by exists n', v'.
      * rewrite elem_of_app, list_elem_of_singleton. split.
        -- intros [[?| ->]|(n' & v' & Hin & ? & ?)]; [by left| |].
           ++ right. exists n, v. split; [left|]. by split; [|left].
           ++ right. exists n', v'. split; [by right|done].
        -- intros [?|(n' & v' & Hin & -> & Hor)]; [by left; left|].
           apply elem_of_cons in Hin as [[= -> ->]|Hin]; [by left; right|].
           right. by exists n', v'.
    + intros c. rewrite IHc. unfold compare_new.
      destruct (map_get n oldMap) as [[|o ov]|] eqn:Hget; cbn [snd].
      * split.
        -- intros [?|(n' & v' & ov' & Hin & ?)]; [by left|].
           right. exists n', v', ov'. split; [by right|done].
        -- intros [?|(n' & v' & ov' & Hin & Hg & Hne & ?)]; [by left|].
           apply elem_of_cons in Hin as [[= -> ->]|Hin]; [congruence|].
           right. by exists n', v', ov'.
      * destruct (negb _) eqn:Hb; cbn [snd];
          [apply negb_true_iff, bool_decide_eq_false in Hb; rename Hb into Hne
          |apply negb_false_iff, bool_decide_eq_true in Hb; subst v].
        2:{ split.
           ++ intros [?|(n' & v' & ov' & Hin & ?)]; [by left|].
              right. exists n', v', ov'. split; [by right|done].
           ++ intros [?|(n' & v' & ov' & Hin & Hg & Hne & Hne' & ?)]; [by left|].
              apply elem_of_cons in Hin as [[= -> ->]|Hin]; [congruence|].
              right. by exists n', v', ov'. }
        -- rewrite elem_of_app, list_elem_of_singleton. split.
           ++ intros [[?| ->]|(n' & v' & ov' & Hin & ?)]; [by left| |].
              ** right. exists n, v, (o :: ov). split; [left|done].
              ** right. exists n', v', ov'. split; [by right|done].
           ++ intros [?|(n' & v' & ov' & Hin & Hg & Hne1 & Hne2 & ->)];
                [by left; left|].
              apply elem_of_cons in Hin as [[= -> ->]|Hin].
              ** left. right. congruence.
              ** right. by exists n', v', ov'.
      * split.
        -- intros [?|(n' & v' & ov' & Hin & ?)]; [by left|].
           right. exists n', v', ov'. split; [by right|done].
        -- intros [?|(n' & v' & ov' & Hin & Hg & Hne & ?)]; [by left|].
           apply elem_of_cons in Hin as [[= -> ->]|Hin]; [congruence|].
           right. by exists n', v', ov'.
Qed.

Lemma compare_old_fold (oldMap newMap : Map) :
  forall acc : list jsstring,
    forall s, s ∈ fold_left (compare_old newMap) oldMap acc <->
      s ∈ acc
      \/ exists n v, (n, v) ∈ oldMap /\ s = dashed n v /\ map_get n newMap = None.
Proof.
  induction oldMap as [|[n v] oldMap IH]; intros acc s; cbn [fold_left].
  - split; [by left|]. intros [?|(? & ? & H & _)]; [done|inversion H].
  - rewrite IH. unfold compare_old, map_has.
    destruct (map_get n newMap) eqn:Hget; cbn [negb].
    + split.
      * intros [?|(n' & v' & Hin & ?)]; [by left|].
        right. exists n', v'. split; [by right|done].
      * intros [?|(n' & v' & Hin & -> & Hg)]; [by left|].
        apply elem_of_cons in Hin as [[= -> ->]|Hin]; [congruence|].
        right. by exists n', v'.
    + rewrite elem_of_app, list_elem_of_singleton. split.
      * intros [[?| ->]|(n' & v' & Hin & ?)]; [by left| |].
        -- right. exists n, v. split; [left|done].
        -- right. exists n', v'. split; [by right|done].
      * intros [?|(n' & v' & Hin & -> & Hg)]; [by left; left|].
        apply elem_of_cons in Hin as [[= -> ->]|Hin]; [by left; right|].
        right. by exists n', v'.
Qed.

Lemma diff_members (oldPkgs newPkgs : list jsstring) :
  let d := diffGenerationPaths oldPkgs newPkgs in
  (forall s, s ∈ added d <->
     exists n v, s = dashed n v
                 /\ latest_version newPkgs n = Some v
                 /\ latest_version oldPkgs n = None)
  /\ (forall s, s ∈ removed d <->
       exists n v, s = dashed n v
                   /\ latest_version oldPkgs n = Some v
                   /\ latest_version newPkgs n = None)
  /\ (forall c, c ∈ changed d <->
       latest_version oldPkgs (pkg c) = Some (from_ c)
       /\ latest_version newPkgs (pkg c) = Some (to_ c)
       /\ from_ c <> to_ c).
Proof.
  unfold diffGenerationPaths.
  pose proof (compare_new_fold (version_map oldPkgs) (version_map newPkgs) ([], []))
    as [Ha Hc].
  pose proof (compare_old_fold (version_map oldPkgs) (version_map newPkgs) []) as Hr.
  destruct (fold_left (compare_new _) _ _) as [a c]. cbn [fst snd] in Ha, Hc.
  cbn [added removed changed]. split; [|split].
  - intros s. rewrite Ha. split.
    + intros [H|(n & v & Hin & -> & Hold)]; [inversion H|].
      apply map_get_elem in Hin; [|apply version_map_keys].
      rewrite version_map_get in Hin, Hold. exists n, v.
      split; [done|]. split; [done|]. destruct Hold as [?|Hold]; [done|].
      by apply latest_version_nonempty in Hold.
    + intros (n & v & -> & Hnew & Hold). right. exists n, v.
      split; [|split; [done|left; by rewrite version_map_get]].
      apply map_get_elem; [apply version_map_keys|]. by rewrite version_map_get.
  - intros s. rewrite Hr. split.
    + intros [H|(n & v & Hin & -> & Hnew)]; [inversion H|].
      apply map_get_elem in Hin; [|apply version_map_keys].
      rewrite version_map_get in Hin, Hnew. by exists n, v.
    + intros (n & v & -> & Hold & Hnew). right. exists n, v.
      split; [|split; [done|by rewrite version_map_get]].
      apply map_get_elem; [apply version_map_keys|]. by rewrite version_map_get.
  - intros ch. rewrite Hc. split.
    + intros [H|(n & v & ov & Hin & Hold & Hne & Hdiff & ->)]; [inversion H|].
      apply map_get_elem in Hin; [|apply version_map_keys].
      rewrite version_map_get in Hin, Hold. done.
    + intros (Hold & Hnew & Hdiff). right.
      exists (pkg ch), (to_ ch), (from_ ch).
      split; [|split; [by rewrite version_map_get|]].
      * apply map_get_elem; [apply version_map_keys|]. by rewrite version_map_get.
      * split; [by apply latest_version_nonempty in Hold|].
        split; [done|]. by destruct ch.
Qed.

(** X20. [diffGenerationPaths] compares, name by name, the versions that
    the two closures give a package (the last element of a closure that
    [nameVersion] splits into that name wins; elements it does not split
    are ignored). A name versioned only in the new closure is reported as
    added, one versioned only in the old closure as removed, each with its
    version, and a name with different versions as changed from the old
    version to the new. Comparing a closure with itself reports
    nothing. *)
Theorem diffGenerationPaths_spec :
  forall oldPkgs newPkgs : list jsstring,
    let d := diffGenerationPaths oldPkgs newPkgs in
    (forall s, s ∈ added d <->
       exists n v, s = dashed n v
                   /\ latest_version newPkgs n = Some v
                   /\ latest_version oldPkgs n = None)
    /\ (forall s, s ∈ removed d <->
         exists n v, s = dashed n v
                     /\ latest_version oldPkgs n = Some v
                     /\ latest_version newPkgs n = None)
    /\ (forall c, c ∈ changed d <->
         latest_version oldPkgs (pkg c) = Some (from_ c)
         /\ latest_version newPkgs (pkg c) = Some (to_ c)
         /\ from_ c <> to_ c)
    /\ diffGenerationPaths oldPkgs oldPkgs
       = {| added := []; removed := []; changed := [] |}.
Proof.
  intros oldPkgs newPkgs d.
  destruct (diff_members oldPkgs newPkgs) as (Ha & Hr & Hc).
  split; [done|]. split; [done|]. split; [done|].
  destruct (diff_members oldPkgs oldPkgs) as (Ha' & Hr' & Hc').
  destruct (diffGenerationPaths oldPkgs oldPkgs) as [a r c].
  cbn [added removed changed] in *.
  assert (a = []) as ->.
  { destruct a as [|s a]; [done|].
    destruct (proj1 (Ha' s)) as (n & v & _ & H1 & H2); [left|congruence]. }
  assert (r = []) as ->.
  { destruct r as [|s r]; [done|].
    destruct (proj1 (Hr' s)) as (n & v & _ & H1 & H2); [left|congruence]. }
  assert (c = []) as ->; [|done].
  destruct c as [|ch c]; [done|].
  destruct (proj1 (Hc' ch)) as (H1 & H2 & H3); [left|congruence].
Qed.

(** The expectations of the generations test on [diffGenerationPaths]. *)
Example diffs_two_generation_closures :
  let d := diffGenerationPaths
             [lit "pkgA-1.0"; lit "pkgB-2.0"; lit "pkgC-3.0"]
             [lit "pkgA-1.0"; lit "pkgB-2.1"; lit "pkgD-1.0"] in
  added d = [lit "pkgD-1.0"] /\ removed d = [lit "pkgC-3.0"]
  /\ changed d = [{| pkg := lit "pkgB"; from_ := lit "2.0"; to_ := lit "2.1" |}].
Proof. vm_compute. repeat split. Qed.

End GenerationsExtras.
